(** * Outperformance: a hedge-fund clone strategy against a benchmark

    Shallow embedding of [evaluation.py] (class [HedgeFund]) and the
    properties of its four stages: the disclosure loader
    ([get_positions]), the price aligner ([get_prices]), the portfolio
    composer ([create_portfolio]) and the comparator
    ([calculate_returns], [plot_growth]).

    Conventions of the embedding.
    - A pandas float cell is a [num]: a rational, one of the two
      infinities, or NaN.  Arithmetic is exact (no binary rounding, no
      overflow, no signed zero); everything else about IEEE arithmetic
      that the program relies on (NaN propagation, 0/0, x/0, [fillna],
      sums that skip NaN) is kept.
    - A date is the number of days since 1970-01-01 (a [Z]).  The file
      names carry ISO dates, whose string order is the order of the
      days; the loader sorts them before converting.
    - A data frame is the list of its rows, in row order.
    - A Python exception is a value of [exn]; a method of the class is a
      function into [result]. *)

From Stdlib Require Import ZArith QArith Qround Qabs Bool List String Ascii Lia Lqa.
From Stdlib Require Import Sorting.Sorted Sorting.Permutation.
From Stdlib Require Import DecimalString OrderedTypeEx.
Import ListNotations.

Local Open Scope Z_scope.

(* ================================================================== *)
(** ** Floating-point cells *)

Module Num.

Inductive num : Type :=
| Fin (q : Q)
| PInf
| NInf
| NaN.

Definition of_Z (z : Z) : num := Fin (inject_Z z).

(** [pd.isna] / [np.isnan] *)
Definition isna (x : num) : bool :=
  match x with NaN => true | _ => false end.

Definition is_fin (x : num) : bool :=
  match x with Fin _ => true | _ => false end.

Definition neg (x : num) : num :=
  match x with
  | Fin q => Fin (- q)
  | PInf => NInf
  | NInf => PInf
  | NaN => NaN
  end.

Definition add (x y : num) : num :=
  match x, y with
  | NaN, _ | _, NaN => NaN
  | Fin a, Fin b => Fin (a + b)
  | PInf, NInf | NInf, PInf => NaN
  | PInf, _ | _, PInf => PInf
  | NInf, _ | _, NInf => NInf
  end.

Definition sub (x y : num) : num := add x (neg y).

(** the infinity with the sign of [a], NaN when [a] is zero *)
Definition signed_inf (a : Q) : num :=
  match (a ?= 0)%Q with
  | Eq => NaN
  | Gt => PInf
  | Lt => NInf
  end.

Definition mul (x y : num) : num :=
  match x, y with
  | NaN, _ | _, NaN => NaN
  | Fin a, Fin b => Fin (a * b)
  | Fin a, PInf | PInf, Fin a => signed_inf a
  | Fin a, NInf | NInf, Fin a => signed_inf (- a)
  | PInf, PInf | NInf, NInf => PInf
  | PInf, NInf | NInf, PInf => NInf
  end.

Definition div (x y : num) : num :=
  match x, y with
  | NaN, _ | _, NaN => NaN
  | Fin a, Fin b => if Qeq_bool b 0 then signed_inf a else Fin (a / b)
  | Fin _, _ => Fin 0
  | PInf, Fin b => if Qle_bool 0 b then PInf else NInf
  | NInf, Fin b => if Qle_bool 0 b then NInf else PInf
  | _, _ => NaN
  end.

(** [x > 0]; every comparison with NaN is false *)
Definition gt0 (x : num) : bool :=
  match x with
  | Fin q => negb (Qle_bool q 0)
  | PInf => true
  | _ => false
  end.

(** [x.fillna(d)] on one cell *)
Definition fillna (x d : num) : num := if isna x then d else x.

(** nearest integer, ties to the even one ([np.rint]) *)
Definition rint (q : Q) : Z :=
  let f := Qfloor q in
  match (q - inject_Z f ?= 1 # 2)%Q with
  | Lt => f
  | Gt => f + 1
  | Eq => if Z.even f then f else f + 1
  end.

(** [round(x, 2)] as numpy computes it: scale, [rint], unscale *)
Definition round2 (x : num) : num :=
  match x with
  | Fin q => Fin (inject_Z (rint (q * 100)) / 100)
  | _ => x
  end.

(** equality of cells: equality of the rationals they denote *)
Definition eq (x y : num) : Prop :=
  match x, y with
  | Fin a, Fin b => (a == b)%Q
  | PInf, PInf | NInf, NInf | NaN, NaN => True
  | _, _ => False
  end.

Definition eqb (x y : num) : bool :=
  match x, y with
  | Fin a, Fin b => Qeq_bool a b
  | PInf, PInf | NInf, NInf | NaN, NaN => true
  | _, _ => false
  end.

(** [Series.sum()]: NaN cells are skipped, the empty sum is 0 *)
Definition sum (l : list num) : num :=
  fold_left add (filter (fun x => negb (isna x)) l) (Fin 0).

(** [Series.cumprod()]: a NaN cell stays NaN and leaves the running
    product as it is *)
Fixpoint cumprod_from (acc : num) (l : list num) : list num :=
  match l with
  | [] => []
  | x :: l' =>
      if isna x then NaN :: cumprod_from acc l'
      else let acc' := mul acc x in acc' :: cumprod_from acc' l'
  end.

Definition cumprod (l : list num) : list num := cumprod_from (Fin 1) l.

End Num.

Import Num.
Abbreviation num := Num.num.
Infix "≡" := Num.eq (at level 70, no associativity).

(* ================================================================== *)
(** ** Exceptions *)

(** The exceptions of the run.  [ValueError] and [IndexError] are raised
    by pandas and numpy under the calls of the program; the last two are
    the classes of the documented error taxonomy, for which the program
    has no [raise]. *)
Inductive exn : Type :=
| ValueError
| IndexError
| KeyError
| DataIntegrityError
| DataUnavailableError.

Inductive result (A : Type) : Type :=
| Ok (a : A)
| Raise (e : exn).
Arguments Ok {A} a.
Arguments Raise {A} e.

Definition bind {A B : Type} (m : result A) (k : A -> result B) : result B :=
  match m with
  | Ok a => k a
  | Raise e => Raise e
  end.

Notation "x <- m ;; k" := (bind m (fun x => k))
  (at level 61, m at next level, right associativity).

Definition succeeds {A : Type} (m : result A) : Prop :=
  exists a, m = Ok a.

(* ================================================================== *)
(** ** Strings and dates *)

Local Open Scope string_scope.
Local Open Scope Z_scope.

Definition upper (c : ascii) : ascii :=
  let n := N_of_ascii c in
  if ((97 <=? n) && (n <=? 122))%N then ascii_of_N (n - 32) else c.

Fixpoint upper_string (s : string) : string :=
  match s with
  | EmptyString => EmptyString
  | String c s' => String (upper c) (upper_string s')
  end.

(** [pat in s] *)
Fixpoint contains (pat s : string) : bool :=
  prefix pat s ||
  match s with
  | EmptyString => false
  | String _ s' => contains pat s'
  end.

(** [s.str.contains('EXP|UNIT', regex=True, case=False)], for class
    codes in ASCII *)
Definition contains_exp_unit (s : string) : bool :=
  let u := upper_string s in contains "EXP" u || contains "UNIT" u.

(** [s.str.replace(',', '')] *)
Fixpoint strip_commas (s : string) : string :=
  match s with
  | EmptyString => EmptyString
  | String c s' =>
      if Ascii.eqb c "," then strip_commas s' else String c (strip_commas s')
  end.

Definition str_of_Z (z : Z) : string := NilZero.string_of_int (Z.to_int z).

(** year and month of a day number (proleptic Gregorian calendar) *)
Definition year_month (days : Z) : Z * Z :=
  let z := days + 719468 in
  let era := z / 146097 in
  let doe := z - era * 146097 in
  let yoe := (doe - doe / 1460 + doe / 36524 - doe / 146096) / 365 in
  let doy := doe - (365 * yoe + yoe / 4 - yoe / 100) in
  let mp := (5 * doy + 2) / 153 in
  let m := if mp <? 10 then mp + 3 else mp - 9 in
  let y := yoe + era * 400 in
  ((if m <=? 2 then y + 1 else y), m).

(** ['q' + dt.quarter.astype(str) + '_' + dt.year.astype(str)] *)
Definition quarter_label (days : Z) : string :=
  let (y, m) := year_month days in
  ("q" ++ str_of_Z ((m - 1) / 3 + 1) ++ "_" ++ str_of_Z y)%string.

(* ================================================================== *)
(** ** Generic table operations *)

Section Tables.
Context {A : Type}.

(** [sort_values]: a stable sort, by insertion from the right.  [leb]
    is the order of the sort keys. *)
Section Sort.
Variable leb : A -> A -> bool.

Fixpoint insert (x : A) (l : list A) : list A :=
  match l with
  | [] => [x]
  | y :: l' => if leb x y then x :: l else y :: insert x l'
  end.

Definition sort_values (l : list A) : list A := fold_right insert [] l.
End Sort.

(** [Series.unique()]: the distinct values, in order of appearance *)
Section Unique.
Variable eqb : A -> A -> bool.

Fixpoint unique_from (seen : list A) (l : list A) : list A :=
  match l with
  | [] => []
  | x :: l' =>
      if existsb (eqb x) seen then unique_from seen l'
      else x :: unique_from (x :: seen) l'
  end.

Definition unique (l : list A) : list A := unique_from [] l.
End Unique.

(** [astype(float)] and the like: convert every cell, the first failure
    is the exception of the whole column *)
Fixpoint mapM {B : Type} (f : A -> result B) (l : list A) : result (list B) :=
  match l with
  | [] => Ok []
  | x :: l' => y <- f x ;; ys <- mapM f l' ;; Ok (y :: ys)
  end.

(** last element that satisfies [p] *)
Definition find_last (p : A -> bool) (l : list A) : option A :=
  find p (rev l).

Section Asof.
(** [pd.merge_asof(..., direction='nearest')] for one left key:
    among the right rows (already restricted to the [by] group, in
    table order, sorted by [on]) the last one at or before the key
    and the first one at or after it are looked up; the nearer one
    is taken, the earlier one on a tie. *)
Variable on : A -> Z.

Definition asof_backward (key : Z) (right : list A) : option A :=
  find_last (fun r => on r <=? key) right.

Definition asof_forward (key : Z) (right : list A) : option A :=
  find (fun r => key <=? on r) right.

Definition asof_nearest (key : Z) (right : list A) : option A :=
  match asof_backward key right, asof_forward key right with
  | Some b, Some f => if key - on b <=? on f - key then Some b else Some f
  | Some b, None => Some b
  | None, Some f => Some f
  | None, None => None
  end.

(** [merge_asof] refuses keys that are not sorted *)
Fixpoint is_sorted (l : list A) : bool :=
  match l with
  | [] => true
  | x :: l' =>
      match l' with
      | [] => true
      | y :: _ => (on x <=? on y) && is_sorted l'
      end
  end.
End Asof.
End Tables.

Definition list_min (l : list Z) : option Z :=
  match l with
  | [] => None
  | x :: l' => Some (fold_right Z.min x l')
  end.

Definition list_max (l : list Z) : option Z :=
  match l with
  | [] => None
  | x :: l' => Some (fold_right Z.max x l')
  end.

(* ================================================================== *)
(** ** The disclosure loader *)

(** One line of a 13F snapshot as [pd.read_csv] returns it: the symbol
    may be missing; the columns of numbers are columns of text, as
    pandas reads them where the numbers carry thousands separators (the
    [.str] accessor of lines 59 and 66 is for such columns only). *)
Record csv_row : Type := {
  Sym : option string;
  Cl : string;
  Shares : string;
  Value000 : string
}.

(** A snapshot file: the filing date that line 45 reads off its name
    ([Deerfield_YYYY-MM-DD.csv]) and its lines. *)
Definition snapshot : Type := Z * list csv_row.

(** A line after [concat], [rename], [dropna(subset='ticker')]. *)
Record holding : Type := {
  h_date : Z;
  h_ticker : string;
  h_class : string;
  h_shares : string;
  h_value : string
}.

(** A row of [self.positions]. *)
Record position : Type := {
  date : Z;
  ticker : string;
  class : string;
  shares : num;
  sell_date : Z;
  change : num;
  value : num;
  quarter : string
}.

(** lines 44-51 for one file: the date column is inserted, the lines
    without a ticker are dropped *)
Definition labelled (f : snapshot) : list holding :=
  let (d, rows) := f in
  flat_map (fun r =>
    match Sym r with
    | Some t => [{| h_date := d; h_ticker := t; h_class := Cl r;
                    h_shares := Shares r; h_value := Value000 r |}]
    | None => []
    end) rows.

(** order of [sort_values(['date', 'ticker'])] *)
Definition date_ticker_leb (a b : holding) : bool :=
  (h_date a <? h_date b) ||
  ((h_date a =? h_date b) && (h_ticker a <=? h_ticker b)%string).

(** lines 48-53: the normalized lines, sorted, options and units removed *)
Definition normalize (files : list snapshot) : list holding :=
  filter (fun h => negb (contains_exp_unit (h_class h)))
         (sort_values date_ticker_leb (flat_map labelled files)).

(** [groupby('ticker')['shares'].diff()]: [seen] holds the rows above,
    nearest first; the first of them with the ticker is the previous
    row of the group. *)
Fixpoint groupby_diff (seen rows : list (holding * num)) : list num :=
  match rows with
  | [] => []
  | r :: rows' =>
      match find (fun p => String.eqb (h_ticker (fst p)) (h_ticker (fst r))) seen with
      | Some p => sub (snd r) (snd p)
      | None => NaN
      end :: groupby_diff (r :: seen) rows'
  end.

(** [date == date.min()] *)
Definition at_earliest (dmin : option Z) (d : Z) : bool :=
  match dmin with
  | Some m => d =? m
  | None => false
  end.

(** lines 60-64 on one row: [d] is the group difference, [dmin] the
    earliest date of the table *)
Definition change_of (dmin : option Z) (r : holding * num) (d : num) : num :=
  if at_earliest dmin (h_date (fst r)) then NaN else fillna d (snd r).

(** lines 60-64: the column [change] *)
Definition with_change (rows : list (holding * num)) : list (holding * num * num) :=
  let dmin := list_min (map (fun r => h_date (fst r)) rows) in
  map (fun rd => (fst rd, change_of dmin (fst rd) (snd rd)))
      (combine rows (groupby_diff [] rows)).

Section Loader.
(** Python's [float(s)]: [None] where it raises [ValueError]. *)
Variable float_of_string : string -> option num.
(** [self.n_weeks] *)
Variable n_weeks : Z.

(** [.str.replace(',', '').astype(float)] on one cell *)
Definition astype_float (s : string) : result num :=
  match float_of_string (strip_commas s) with
  | Some x => Ok x
  | None => Raise ValueError
  end.

(** line 59 on one row *)
Definition parse_shares (h : holding) : result (holding * num) :=
  x <- astype_float (h_shares h) ;; Ok (h, x).

(** lines 56, 66 and 69 on one row *)
Definition parse_value (r : holding * num * num) : result position :=
  let '(h, s, c) := r in
  v <- astype_float (h_value h) ;;
  Ok {| date := h_date h; ticker := h_ticker h; class := h_class h;
        shares := s; sell_date := h_date h + 7 * n_weeks;
        change := c; value := mul v (Fin 1000);
        quarter := quarter_label (h_date h) |}.

(** The table of [HedgeFund.get_positions].  [files] are the
    snapshots of the directory, in the order of [os.listdir];
    [pd.concat] of no frame at all raises [ValueError]. *)
Definition read_positions (files : list snapshot) : result (list position) :=
  match files with
  | [] => Raise ValueError
  | _ =>
      rows <- mapM parse_shares (normalize files) ;;
      mapM parse_value (with_change rows)
  end.
End Loader.

(* ================================================================== *)
(** ** The price aligner *)

(** What [yf.download(tickers, ...)['Adj Close']] returns: weekly dates
    and one column of prices per ticker. *)
Record price_frame : Type := {
  pf_index : list Z;
  pf_columns : list (string * list num)
}.

(** What [yf.download('VOO', ...)['Adj Close']] returns: one series. *)
Definition price_series : Type := list (Z * num).

(** A row of [self.price_change]. *)
Record observation : Type := {
  o_sell_date : Z;
  o_ticker : string;
  o_price_change : num
}.

(** [fillna(method='pad')] *)
Fixpoint ffill_from (last : num) (l : list num) : list num :=
  match l with
  | [] => []
  | x :: l' => let y := fillna x last in y :: ffill_from y l'
  end.

(** [shift(n)] *)
Definition shift (n : Z) (l : list num) : list num :=
  if 0 <=? n
  then firstn (List.length l) (repeat NaN (Z.to_nat n) ++ l)%list
  else (skipn (Z.to_nat (- n)) l
        ++ repeat NaN (Nat.min (Z.to_nat (- n)) (List.length l)))%list.

(** [pct_change(n) * 100] with the [fill_method='pad'] that is the
    default of the pandas releases that still return ['Adj Close']:
    missing prices are padded, each price is divided by the one [n]
    rows above, one is subtracted *)
Definition pct_change100 (n : Z) (l : list num) : list num :=
  let d := ffill_from NaN l in
  map (fun ab => mul (sub (div (fst ab) (snd ab)) (Fin 1)) (Fin 100))
      (combine d (shift n d)).

(** [reset_index().melt(id_vars='Date', var_name='ticker', ...)] *)
Definition melt (idx : list Z) (cols : list (string * list num)) : list observation :=
  flat_map (fun c =>
    map (fun dv => {| o_sell_date := fst dv; o_ticker := fst c;
                      o_price_change := snd dv |})
        (combine idx (snd c))) cols.

(** order of [sort_values(['sell_date', 'ticker'])] *)
Definition sell_date_ticker_leb (a b : observation) : bool :=
  (o_sell_date a <? o_sell_date b) ||
  ((o_sell_date a =? o_sell_date b) && (o_ticker a <=? o_ticker b)%string).

(** line 78 *)
Definition buy_tickers (positions : list position) : list string :=
  unique String.eqb (map ticker (filter (fun p => gt0 (change p)) positions)).

(** lines 83-84; [unique()[1]] raises [IndexError] when the table has
    fewer than two dates *)
Definition query_window (positions : list position) : result (Z * Z) :=
  match nth_error (unique Z.eqb (map date positions)) 1 with
  | None => Raise IndexError
  | Some start =>
      match list_max (map sell_date positions) with
      | Some stop => Ok (start, stop)
      | None => Raise ValueError
      end
  end.

(* ================================================================== *)
(** ** The portfolio composer *)

(** A row of a portfolio: the position, the return merged to it, its
    weight and its contribution. *)
Record holding_return : Type := {
  p_pos : position;
  p_price_change : num;
  p_weight : num;
  p_performance : num
}.

(** A row of a performance table. *)
Record period_return : Type := {
  pr_quarter : string;
  pr_sell_date : Z;
  pr_performance : num
}.

(** A performance table.  [Enlarged] is the table that the assignment
    to [.loc[0, 'performance']] makes of a table without rows: one row,
    every cell of it missing. *)
Inductive performance_table : Type :=
| Rows (rows : list period_return)
| Enlarged.

(** the return observation merged to a position: nearest date among the
    observations of its ticker; NaN when there is none *)
Definition nearest_return (price_change : list observation) (p : position) : num :=
  match asof_nearest o_sell_date (sell_date p)
          (filter (fun o => String.eqb (o_ticker o) (ticker p)) price_change) with
  | Some o => o_price_change o
  | None => NaN
  end.

(** [groupby('quarter')['value'].transform(lambda x: x / x.sum())] *)
Definition weight_of (positions : list position) (p : position) : num :=
  div (value p)
      (Num.sum (map value
         (filter (fun r => String.eqb (quarter r) (quarter p)) positions))).

(** lines 114-121 *)
Definition merge_weight (positions : list position) (price_change : list observation)
  : result (list holding_return) :=
  if is_sorted sell_date positions && is_sorted o_sell_date price_change
  then Ok (map (fun p =>
         let r := nearest_return price_change p in
         let w := weight_of positions p in
         {| p_pos := p; p_price_change := r; p_weight := w;
            p_performance := mul r w |}) positions)
  else Raise ValueError.

(** the group of a row under [groupby(['quarter','sell_date'])] *)
Definition period_key (r : holding_return) : string * Z :=
  (quarter (p_pos r), sell_date (p_pos r)).

Definition period_key_eqb (a b : string * Z) : bool :=
  String.eqb (fst a) (fst b) && (snd a =? snd b).

(** [groupby(['quarter','sell_date'])['performance'].sum().reset_index()] *)
Definition groupby_sum (rows : list holding_return) : list period_return :=
  map (fun k =>
         {| pr_quarter := fst k; pr_sell_date := snd k;
            pr_performance :=
              Num.sum (map p_performance
                 (filter (fun r => period_key_eqb (period_key r) k) rows)) |})
      (unique period_key_eqb (map period_key rows)).

Definition pr_sell_date_leb (a b : period_return) : bool :=
  pr_sell_date a <=? pr_sell_date b.

(** [performance.loc[0, 'performance'] = np.nan] *)
Definition set_loc0_nan (t : list period_return) : performance_table :=
  match t with
  | [] => Enlarged
  | r :: t' =>
      Rows ({| pr_quarter := pr_quarter r; pr_sell_date := pr_sell_date r;
               pr_performance := NaN |} :: t')
  end.

(** lines 123-125.  The groups carry distinct dates, so that the order
    in which [groupby] leaves them does not show after the sort. *)
Definition period_returns (rows : list holding_return) : performance_table :=
  set_loc0_nan (sort_values pr_sell_date_leb (groupby_sum rows)).

(** a Python dict: assignment keeps the place of a key that is there *)
Fixpoint dict_set {V : Type} (k : string) (v : V) (d : list (string * V))
  : list (string * V) :=
  match d with
  | [] => [(k, v)]
  | kv :: d' =>
      if String.eqb (fst kv) k then (k, v) :: d' else kv :: dict_set k v d'
  end.

Fixpoint dict_get {V : Type} (k : string) (d : list (string * V)) : option V :=
  match d with
  | [] => None
  | kv :: d' => if String.eqb (fst kv) k then Some (snd kv) else dict_get k d'
  end.

(* ================================================================== *)
(** ** The comparator *)

(** The comparison table, by columns: [quarter] (only there when one
    approach is compared), [sell_date], and the columns of floats under
    their labels, in column order. *)
Record frame : Type := {
  quarter_col : option (list string);
  sell_date_col : list Z;
  float_cols : list (string * list num)
}.

Definition empty_frame : frame :=
  {| quarter_col := None; sell_date_col := []; float_cols := [] |}.

Definition labels (f : frame) : list string := map fst (float_cols f).

Definition has_label (c : string) (f : frame) : bool :=
  existsb (String.eqb c) (labels f).

Definition map_floats (g : string -> list num -> list num) (f : frame) : frame :=
  {| quarter_col := quarter_col f; sell_date_col := sell_date_col f;
     float_cols := map (fun c => (fst c, g (fst c) (snd c))) (float_cols f) |}.

Definition set_floats (cols : list (string * list num)) (f : frame) : frame :=
  {| quarter_col := quarter_col f; sell_date_col := sell_date_col f;
     float_cols := cols |}.

(** [DataFrame.round(2)] *)
Definition round_frame (f : frame) : frame :=
  map_floats (fun _ col => map round2 col) f.

(** [np.argsort(kind='stable')] *)
Definition argsort (keys : list Z) : list nat :=
  map snd (sort_values (fun a b : Z * nat => fst a <=? fst b)
             (combine keys (seq 0 (List.length keys)))).

Definition take {A : Type} (d : A) (idx : list nat) (col : list A) : list A :=
  map (fun i => nth i col d) idx.

(** [sort_values(by='sell_date')]: the rows are taken in the order of
    the sorted keys *)
Definition sort_by_sell_date (f : frame) : frame :=
  let idx := argsort (sell_date_col f) in
  {| quarter_col := option_map (take EmptyString idx) (quarter_col f);
     sell_date_col := take 0 idx (sell_date_col f);
     float_cols := map (fun c => (fst c, take NaN idx (snd c))) (float_cols f) |}.

(** the benchmark return merged to a date: nearest date of the series *)
Definition benchmark_at (sp500_change : list (Z * num)) (d : Z) : num :=
  match asof_nearest fst d sp500_change with
  | Some o => snd o
  | None => NaN
  end.

(** a table that has rows; the one-row table of missing cells has a
    missing merge key, which [merge_asof] refuses *)
Definition table_rows (t : performance_table) : result (list period_return) :=
  match t with
  | Rows rows => Ok rows
  | Enlarged => Raise ValueError
  end.

(** line 146: the only table, as it is *)
Definition single_frame (rows : list period_return) : frame :=
  {| quarter_col := Some (map pr_quarter rows);
     sell_date_col := map pr_sell_date rows;
     float_cols := [("performance"%string, map pr_performance rows)] |}.

(** the index of [pd.concat(ls, axis=1)]: the dates of all tables *)
Definition union_index (tables : list (list period_return)) : list Z :=
  unique Z.eqb (sort_values Z.leb (flat_map (map pr_sell_date) tables)).

(** the returns of one approach along the index, NaN at a date that
    its table does not have *)
Definition approach_column (index : list Z) (rows : list period_return) : list num :=
  map (fun d =>
         match find (fun r => pr_sell_date r =? d) rows with
         | Some r => pr_performance r
         | None => NaN
         end) index.

(** lines 142-144, for tables whose dates strictly increase (those of
    [create_portfolio]).  [rename] turns [performance] into the name of
    the approach: an approach called [quarter] is then dropped with the
    quarter column, one called [sell_date] leaves two columns of that
    label, of which [set_index] cannot make an index. *)
Definition concat_frame (perf : list (string * list period_return)) : result frame :=
  if existsb (String.eqb "sell_date") (map fst perf) then Raise ValueError
  else
    let index := union_index (map snd perf) in
    Ok {| quarter_col := None;
          sell_date_col := index;
          float_cols :=
            map (fun ar => (fst ar, approach_column index (snd ar)))
                (filter (fun ar => negb (String.eqb (fst ar) "quarter")) perf) |}.

(** lines 149-150.  A column that is already called [VOO] and the
    merged one get the suffixes of [merge_asof]. *)
Definition merge_benchmark (f : frame) (sp500_change : list (Z * num)) : result frame :=
  if is_sorted (fun d : Z => d) (sell_date_col f) && is_sorted fst sp500_change
  then
    let voo := map (benchmark_at sp500_change) (sell_date_col f) in
    Ok (if has_label "VOO" f
        then set_floats
               (map (fun c => if String.eqb (fst c) "VOO"
                              then ("VOO_x"%string, snd c) else c) (float_cols f)
                ++ [("VOO_y"%string, voo)])%list f
        else set_floats (float_cols f ++ [("VOO"%string, voo)])%list f)
  else Raise ValueError.

(** lines 151-152 *)
Definition add_outperformance (f : frame) : result frame :=
  match dict_get "performance" (float_cols f) with
  | None => Ok f
  | Some perf =>
      match dict_get "VOO" (float_cols f) with
      | None => Raise KeyError
      | Some voo =>
          Ok (set_floats
                (dict_set "outperformance"
                   (map (fun pv => sub (fst pv) (snd pv)) (combine perf voo))
                   (float_cols f)) f)
      end
  end.

(** the labels that [plot_growth] does not take for approaches *)
Definition is_approach (label : string) : bool :=
  negb (existsb (String.eqb label) ["quarter"; "sell_date"; "outperformance"]%string).

(** lines 178-179 on one column *)
Definition growth_column (principal : num) (col : list num) : list num :=
  map (fun x => mul x principal)
      (cumprod (map (fun x => add (div x (Fin 100)) (Fin 1)) col)).

(** lines 175-180: the table that [plot_growth] draws *)
Definition growth_frame (principal : num) (cmp : frame) : frame :=
  round_frame
    (map_floats (fun c col => if is_approach c then growth_column principal col else col)
       (map_floats (fun _ col => map (fun x => fillna x (Fin 0)) col) cmp)).

(* ================================================================== *)
(** ** The fund: state and methods *)

(** What the program gets from outside. *)
Record World : Type := {
  (** the csv files of [self.directory] with their lines *)
  listdir_csv : list snapshot;
  (** Python's [float(s)]: [None] where it raises [ValueError] *)
  float_of_string : string -> option num;
  (** [yf.download(tickers, start, end, interval='1wk')['Adj Close']] *)
  adj_close : list string -> Z -> Z -> price_frame;
  (** [yf.download('VOO', start, end, interval='1wk')['Adj Close']] *)
  adj_close_of : string -> Z -> Z -> price_series
}.

Record HedgeFund : Type := {
  n_weeks : Z;
  quarters : Z;
  positions : list position;
  price : price_frame;
  price_change : list observation;
  sp500_change : list (Z * num);
  comparison : frame;
  portfolios : list (string * list holding_return);
  performance : list (string * performance_table)
}.

(** [HedgeFund.__init__] *)
Definition init (n : Z) : HedgeFund :=
  {| n_weeks := n; quarters := 0; positions := [];
     price := {| pf_index := []; pf_columns := [] |};
     price_change := []; sp500_change := []; comparison := empty_frame;
     portfolios := []; performance := [] |}.

Section Methods.
Variable w : World.

(** [HedgeFund.get_positions] *)
Definition get_positions (self : HedgeFund) : result HedgeFund :=
  tbl <- read_positions (float_of_string w) (n_weeks self) (listdir_csv w) ;;
  Ok {| n_weeks := n_weeks self;
        quarters := Z.of_nat (List.length (listdir_csv w)) - 1;
        positions := tbl;
        price := price self; price_change := price_change self;
        sp500_change := sp500_change self; comparison := comparison self;
        portfolios := portfolios self; performance := performance self |}.

(** [HedgeFund.get_prices] *)
Definition get_prices (self : HedgeFund) : result HedgeFund :=
  win <- query_window (positions self) ;;
  let (start, stop) := win in
  let pr := adj_close w (buy_tickers (positions self)) start stop in
  let changes :=
    sort_values sell_date_ticker_leb
      (melt (pf_index pr)
         (map (fun c => (fst c, pct_change100 (n_weeks self) (snd c)))
              (pf_columns pr))) in
  let sp500 := adj_close_of w "VOO" start stop in
  Ok {| n_weeks := n_weeks self; quarters := quarters self;
        positions := positions self;
        price := pr; price_change := changes;
        sp500_change :=
          combine (map fst sp500) (pct_change100 (n_weeks self) (map snd sp500));
        comparison := comparison self;
        portfolios := portfolios self; performance := performance self |}.

(** [HedgeFund.create_portfolio] *)
Definition create_portfolio (approach : string) (self : HedgeFund) : result HedgeFund :=
  portfolio <- merge_weight (positions self) (price_change self) ;;
  Ok {| n_weeks := n_weeks self; quarters := quarters self;
        positions := positions self;
        price := price self; price_change := price_change self;
        sp500_change := sp500_change self; comparison := comparison self;
        portfolios := dict_set approach portfolio (portfolios self);
        performance :=
          dict_set approach (period_returns portfolio) (performance self) |}.

(** [HedgeFund.calculate_returns]: the default portfolio where there is
    none, the table of the only approach or the tables of all side by
    side, the benchmark merged to the dates, the outperformance where
    there is a column [performance], rounding, sorting *)
Definition calculate_returns (self : HedgeFund) : result HedgeFund :=
  self <- match performance self with
          | [] => create_portfolio "simple" self
          | _ => Ok self
          end ;;
  perf <- match performance self with
          | [] => Raise IndexError
          | [(_, t)] => rows <- table_rows t ;; Ok (single_frame rows)
          | tables =>
              named <- mapM (fun at_ => rows <- table_rows (snd at_) ;;
                                        Ok (fst at_, rows)) tables ;;
              concat_frame named
          end ;;
  merged <- merge_benchmark perf (sp500_change self) ;;
  cmp <- add_outperformance merged ;;
  Ok {| n_weeks := n_weeks self; quarters := quarters self;
        positions := positions self;
        price := price self; price_change := price_change self;
        sp500_change := sp500_change self;
        comparison := sort_by_sell_date (round_frame cmp);
        portfolios := portfolios self; performance := performance self |}.

(** [HedgeFund.evaluate] *)
Definition evaluate (self : HedgeFund) : result (frame * HedgeFund) :=
  self <- get_positions self ;;
  self <- get_prices self ;;
  self <- calculate_returns self ;;
  Ok (comparison self, self).

(** the table drawn by [HedgeFund.plot_growth] *)
Definition plot_growth (principal : num) (self : HedgeFund) : frame :=
  growth_frame principal (comparison self).
End Methods.

(* ================================================================== *)
(** ** Vocabulary of the properties *)

(** the identity of a disclosure row: filing date and ticker *)
Definition filing_key (p : position) : Z * string := (date p, ticker p).

(** [d] is the earliest filing date of the table *)
Definition earliest (tbl : list position) (d : Z) : Prop :=
  forall p, In p tbl -> d <= date p.

(** [p] is the row of the ticker of [r] at its last filing before [r] *)
Definition preceding (tbl : list position) (p r : position) : Prop :=
  In p tbl /\ ticker p = ticker r /\ date p < date r /\
  forall q, In q tbl -> ticker q = ticker r -> date q < date r -> date q <= date p.

(** the ticker of [r] is in no filing before that of [r] *)
Definition first_appearance (tbl : list position) (r : position) : Prop :=
  forall p, In p tbl -> ticker p = ticker r -> date r <= date p.

Definition distinct_dates (tbl : list position) : list Z :=
  unique Z.eqb (map date tbl).

(** [d] is the second of the distinct filing dates in ascending order *)
Definition second_earliest (tbl : list position) (d : Z) : Prop :=
  In d (map date tbl) /\ ~ earliest tbl d /\
  forall p, In p tbl -> ~ earliest tbl (date p) -> d <= date p.

(** [d] is the latest evaluation date of the table *)
Definition latest_evaluation (tbl : list position) (d : Z) : Prop :=
  In d (map sell_date tbl) /\ forall p, In p tbl -> sell_date p <= d.

(** [o] is the observation of the ticker of [p] nearest to the
    evaluation date of [p], the earlier one of two that are as near *)
Definition nearest_observation (pc : list observation) (p : position)
    (o : observation) : Prop :=
  In o pc /\ o_ticker o = ticker p /\
  forall o', In o' pc -> o_ticker o' = ticker p ->
    Z.abs (o_sell_date o - sell_date p) <= Z.abs (o_sell_date o' - sell_date p) /\
    (Z.abs (o_sell_date o - sell_date p) = Z.abs (o_sell_date o' - sell_date p) ->
     o_sell_date o <= o_sell_date o').

(** the rows of a portfolio in the period of label [q] *)
Definition in_quarter (q : string) (r : holding_return) : bool :=
  String.eqb (quarter (p_pos r)) q.

(** sum of weight times return over the rows of the period [k] that
    have a weight and a return *)
Definition weighted_sum (rows : list holding_return) (k : string * Z) : num :=
  fold_left add
    (map (fun r => mul (p_price_change r) (p_weight r))
       (filter (fun r => period_key_eqb (period_key r) k
                         && (negb (isna (p_price_change r))
                             && negb (isna (p_weight r)))) rows))
    (Fin 0).

(** the first row of the table is the earliest period and its return is
    NaN; the one row of [Enlarged] is of missing cells only *)
Definition first_period_is_nan (t : performance_table) : Prop :=
  match t with
  | Rows [] => False
  | Rows (r0 :: rest) =>
      pr_performance r0 = NaN /\
      Forall (fun r => pr_sell_date r0 < pr_sell_date r) rest
  | Enlarged => True
  end.

(** a cell that is a number or NaN *)
Definition not_inf (x : num) : bool :=
  match x with PInf | NInf => false | _ => true end.

(** [x] is a number no farther than [tol] from [c] *)
Definition within (x : num) (c tol : Q) : Prop :=
  match x with
  | Fin s => (Qabs.Qabs (s - c) <= tol)%Q
  | _ => False
  end.

(** the periods of a performance table *)
Definition periods (t : performance_table) : list (string * Z) :=
  match t with
  | Rows rows => map (fun pr => (pr_quarter pr, pr_sell_date pr)) rows
  | Enlarged => []
  end.

(** the comparison of one approach: the table of the approach, the
    benchmark merged to its dates, their difference, all rounded *)
Definition single_comparison (rows : list period_return)
    (sp500 : list (Z * num)) : frame :=
  {| quarter_col := Some (map pr_quarter rows);
     sell_date_col := map pr_sell_date rows;
     float_cols :=
       [("performance"%string, map (fun r => round2 (pr_performance r)) rows);
        ("VOO"%string,
         map (fun r => round2 (benchmark_at sp500 (pr_sell_date r))) rows);
        ("outperformance"%string,
         map (fun r => round2 (sub (pr_performance r)
                                 (benchmark_at sp500 (pr_sell_date r)))) rows)] |}.

(** the growth factor of a return, NaN counted as 0 percent *)
Definition factor (r : num) : num :=
  add (div (fillna r (Fin 0)) (Fin 100)) (Fin 1).

(** account value after period [k]: the product of the factors of the
    periods up to [k], times the principal, rounded *)
Definition projected (principal : num) (returns : list num) (k : nat) : num :=
  round2 (mul (fold_left mul (map factor (firstn (S k) returns)) (Fin 1)) principal).

(** the exceptions that pandas and numpy raise in the program *)
Definition builtin (e : exn) : Prop :=
  e = ValueError \/ e = IndexError \/ e = KeyError.

(** both numbers of a line can be read *)
Definition parseable (float_of_string : string -> option num) (h : holding) : Prop :=
  float_of_string (strip_commas (h_shares h)) <> None /\
  float_of_string (strip_commas (h_value h)) <> None.

(** the lines that the normalization keeps, in the order of the
    directory *)
Definition kept_lines (files : list snapshot) : list holding :=
  filter (fun h => negb (contains_exp_unit (h_class h))) (flat_map labelled files).

Definition holding_key (h : holding) : Z * string := (h_date h, h_ticker h).

(** [p] is the row that the loader makes of the line [h] *)
Definition row_of_line (float_of_string : string -> option num) (n : Z)
    (h : holding) (p : position) : Prop :=
  date p = h_date h /\ ticker p = h_ticker h /\ class p = h_class h /\
  float_of_string (strip_commas (h_shares h)) = Some (shares p) /\
  (exists v, float_of_string (strip_commas (h_value h)) = Some v /\
             value p = mul v (Fin 1000)) /\
  sell_date p = h_date h + 7 * n /\ quarter p = quarter_label (h_date h).

(** order of the table: by date, then by ticker *)
Definition date_ticker_le (a b : position) : Prop :=
  date a < date b \/ (date a = date b /\ String.leb (ticker a) (ticker b) = true).

(** the last price known at row [k]: that of the row, or of the
    nearest row above that has one; NaN when there is none yet *)
Definition last_seen (l : list num) (k : nat) : num :=
  match find (fun x => negb (isna x)) (rev (firstn (S k) l)) with
  | Some x => x
  | None => NaN
  end.

(** the change from the price [p0] to the price [p1], in percent *)
Definition percent_change (p0 p1 : num) : num :=
  mul (sub (div p1 p0) (Fin 1)) (Fin 100).

(** the class code names neither an expiration nor a unit, in any mix
    of upper and lower case *)
Definition plain_class (c : string) : Prop :=
  forall a m b : string, c = (a ++ m ++ b)%string ->
    upper_string m <> "EXP"%string /\ upper_string m <> "UNIT"%string.

(** [o] is the row of the benchmark series nearest to the date [d],
    the earlier one of two that are equally near *)
Definition nearest_benchmark (sp500 : list (Z * num)) (d : Z) (o : Z * num) : Prop :=
  In o sp500 /\
  forall o', In o' sp500 ->
    Z.abs (fst o - d) <= Z.abs (fst o' - d) /\
    (Z.abs (fst o - d) = Z.abs (fst o' - d) -> fst o <= fst o').

(* ================================================================== *)
(** ** Example data *)

(** [float()] on the strings of the examples, which are digits once
    the separators are stripped: the value of a string of digits, and
    no value for a string that holds another character (the examples
    have no signs, points, exponents or blanks). *)
Fixpoint digits_value (acc : Z) (s : string) : option Z :=
  match s with
  | EmptyString => Some acc
  | String c s' =>
      let d := N_of_ascii c in
      if ((48 <=? d) && (d <=? 57))%N
      then digits_value (10 * acc + (Z.of_N d - 48)) s'
      else None
  end.

Definition float_of_digits (s : string) : option num :=
  match s with
  | EmptyString => None
  | _ => option_map of_Z (digits_value 0 s)
  end.

Definition line (sym cl sh v : string) : csv_row :=
  {| Sym := Some sym; Cl := cl; Shares := sh; Value000 := v |}.

(** filings of 2023-01-01 and 2023-04-01; BBB is a new position of the
    second one *)
Definition two_filings : list snapshot :=
  [(19358, [line "AAA" "COM" "1,000" "8,000"]);
   (19448, [line "AAA" "COM" "1,500" "10,000";
            line "BBB" "COM" "5,000" "5,000"])].

(** a single filing *)
Definition one_filing : list snapshot :=
  [(19358, [line "AAA" "COM" "1,000" "8,000"])].

(** filings of 2023-01-01, 2023-04-01 and 2023-07-01; BBB is missing
    from the second one *)
Definition three_filings : list snapshot :=
  [(19358, [line "AAA" "COM" "1,000" "8,000"; line "BBB" "COM" "4,000" "2,000"]);
   (19448, [line "AAA" "COM" "1,200" "10,000"]);
   (19539, [line "AAA" "COM" "1,300" "11,000";
            line "BBB" "COM" "7,000" "4,000"])].

(** weekly prices of AAA only, whatever is asked for *)
Definition prices_of_AAA : price_frame :=
  {| pf_index := [19448; 19455; 19462];
     pf_columns := [("AAA"%string, [Fin 100; Fin 110; Fin 121])] |}.

Definition benchmark_prices : price_series :=
  [(19448, Fin 400); (19455, Fin 408); (19462, Fin 412)].

(** a price source that has AAA and the benchmark *)
Definition market (files : list snapshot) : World :=
  {| listdir_csv := files;
     float_of_string := float_of_digits;
     adj_close := fun _ _ _ => prices_of_AAA;
     adj_close_of := fun _ _ _ => benchmark_prices |}.

(** a price source that has nothing for the benchmark *)
Definition market_without_benchmark (files : list snapshot) : World :=
  {| listdir_csv := files;
     float_of_string := float_of_digits;
     adj_close := fun _ _ _ => prices_of_AAA;
     adj_close_of := fun _ _ _ => [] |}.

(** the table of the three filings, read with a holding period of 13
    weeks *)
Definition row (d : Z) (t : string) (sh : Q) (ch : num) (v : Q) (q : string) : position :=
  {| date := d; ticker := t; class := "COM"; shares := Fin sh;
     sell_date := d + 91; change := ch; value := Fin v; quarter := q |}.

Definition aaa_jan : position := row 19358 "AAA" 1000 NaN 8000000 "q1_2023".
Definition bbb_jan : position := row 19358 "BBB" 4000 NaN 2000000 "q1_2023".
Definition aaa_apr : position := row 19448 "AAA" 1200 (Fin 200) 10000000 "q2_2023".
Definition aaa_jul : position := row 19539 "AAA" 1300 (Fin 100) 11000000 "q3_2023".
Definition bbb_jul : position := row 19539 "BBB" 7000 (Fin 3000) 4000000 "q3_2023".

Definition three_table : list position :=
  [aaa_jan; bbb_jan; aaa_apr; aaa_jul; bbb_jul].

(** the table of the single filing *)
Definition one_table : list position :=
  [row 19358 "AAA" 1000 NaN 8000000 "q1_2023"].

(** the state a run has reached, the initial one where it has stopped *)
Definition state_of (r : result HedgeFund) : HedgeFund :=
  match r with
  | Ok s => s
  | Raise _ => init 0
  end.

Definition portfolio_of (a : string) (s : HedgeFund) : list holding_return :=
  match dict_get a (portfolios s) with
  | Some rows => rows
  | None => []
  end.

Definition returns_of (a : string) (s : HedgeFund) : list period_return :=
  match dict_get a (performance s) with
  | Some (Rows t) => t
  | _ => []
  end.

(** a comparison of two periods with the returns NaN and 5 percent *)
Definition nan_then_five : frame :=
  {| quarter_col := Some ["q1_2023"; "q2_2023"]%string;
     sell_date_col := [19449; 19539];
     float_cols := [("performance"%string, [NaN; Fin 5])] |}.

(** the column of a table under a label, empty when it has none *)
Definition column (c : string) (f : frame) : list num :=
  match dict_get c (float_cols f) with
  | Some col => col
  | None => []
  end.

(** the run up to the portfolio of one approach *)
Definition composed (w : World) (n : Z) (approach : string) : result HedgeFund :=
  self <- get_positions w (init n) ;;
  self <- get_prices w self ;;
  create_portfolio approach self.

(** the same with a second approach, called [performance] *)
Definition composed_twice (w : World) (n : Z) : result HedgeFund :=
  self <- composed w n "simple" ;;
  create_portfolio "performance" self.

(** the states of the run over the two filings, one week of holding *)
Definition loaded_two : HedgeFund :=
  state_of (get_positions (market two_filings) (init 1)).

Definition priced_two : HedgeFund :=
  state_of (get_prices (market two_filings) loaded_two).

Definition composed_two : HedgeFund :=
  state_of (create_portfolio "simple" priced_two).

Definition compared_two : HedgeFund :=
  state_of (calculate_returns composed_two).

Definition compared_twice : HedgeFund :=
  state_of (self <- composed_twice (market two_filings) 1 ;; calculate_returns self).

(** two filings with a warrant, a unit and a line without symbol *)
Definition filings_with_options : list snapshot :=
  [(19358, [line "AAA" "COM" "1,000" "8,000";
            line "AAA" "*W Exp 12/31/2027" "2,000" "1,000"]);
   (19448, [line "AAA" "COM" "1,200" "10,000";
            line "CCC" "unit 99/99/9999" "3,000" "2,000";
            {| Sym := None; Cl := "COM"; Shares := "9,000"; Value000 := "9,000" |}])].

(** the table that the loader makes of them *)
Definition options_table : list position := [aaa_jan; aaa_apr].

Definition aaa_apr_line : holding :=
  {| h_date := 19448; h_ticker := "AAA"; h_class := "COM";
     h_shares := "1,200"; h_value := "10,000" |}.


(* ================================================================== *)
(** * Properties *)

(** ** The pieces on small inputs *)

Example contains_exp_unit_warrant : contains_exp_unit "*W EXP 12/31/2027" = true.
Proof. reflexivity. Qed.

Example contains_exp_unit_unit : contains_exp_unit "Unit 99/99/9999" = true.
Proof. reflexivity. Qed.

Example contains_exp_unit_common : contains_exp_unit "COM" = false.
Proof. reflexivity. Qed.

Example strip_commas_thousands : strip_commas "1,234,567" = "1234567"%string.
Proof. reflexivity. Qed.

Example quarter_label_april : quarter_label 19448 = "q2_2023"%string.
Proof. reflexivity. Qed.

Example quarter_label_december : quarter_label 19722 = "q4_2023"%string.
Proof. reflexivity. Qed.

Example round2_tie_down : round2 (Fin (1 # 8)) ≡ Fin (12 # 100).
Proof. reflexivity. Qed.

Example round2_tie_up : round2 (Fin (3 # 8)) ≡ Fin (38 # 100).
Proof. reflexivity. Qed.

Example asof_nearest_tie :
  asof_nearest (fun d : Z => d) 5 [3; 7] = Some 3.
Proof. reflexivity. Qed.

Example asof_nearest_after :
  asof_nearest (fun d : Z => d) 6 [3; 7] = Some 7.
Proof. reflexivity. Qed.

Example sum_skips_nan : Num.sum [Fin 1; NaN; Fin 2] ≡ Fin 3.
Proof. reflexivity. Qed.

Example sum_of_nan_only : Num.sum [NaN; NaN] = Fin 0.
Proof. reflexivity. Qed.

Example outperformance_of_three_and_two :
  match add_outperformance
          {| quarter_col := None; sell_date_col := [19539];
             float_cols := [("performance"%string, [Fin 3]);
                            ("VOO"%string, [Fin 2])] |} with
  | Ok f => Forall2 Num.eq (column "outperformance" (round_frame f)) [Fin 1]
  | Raise _ => False
  end.
Proof. repeat constructor. Qed.

Example groupby_diff_two_tickers :
  groupby_diff []
    [({| h_date := 1; h_ticker := "A"; h_class := "COM"; h_shares := "1";
         h_value := "1" |}, Fin 1);
     ({| h_date := 2; h_ticker := "B"; h_class := "COM"; h_shares := "5";
         h_value := "1" |}, Fin 5);
     ({| h_date := 3; h_ticker := "A"; h_class := "COM"; h_shares := "4";
         h_value := "1" |}, Fin 4)]
  = [NaN; NaN; sub (Fin 4) (Fin 1)].
Proof. reflexivity. Qed.

(** ** Lists, sorting, columns *)

Lemma bind_ok {A B : Type} (m : result A) (k : A -> result B) (b : B) :
  bind m k = Ok b -> exists a, m = Ok a /\ k a = Ok b.
Proof.
  destruct m as [a|e]; simpl; intros H; [eauto | discriminate].
Qed.

Ltac inv_bind H :=
  let x := fresh "x" in
  let Hx := fresh "Hx" in
  apply bind_ok in H; destruct H as [x [Hx H]].

Section SortFacts.
Context {A : Type} (leb : A -> A -> bool) (R : A -> A -> Prop).
Hypothesis leb_true : forall x y, leb x y = true -> R x y.
Hypothesis leb_false : forall x y, leb x y = false -> R y x.
Hypothesis R_trans : forall x y z, R x y -> R y z -> R x z.

Lemma insert_In (x y : A) (l : list A) :
  In y (insert leb x l) <-> y = x \/ In y l.
Proof.
  induction l as [|z l IH]; simpl.
  - intuition.
  - destruct (leb x z); simpl; rewrite ?IH; intuition.
Qed.

Lemma sort_values_In (y : A) (l : list A) :
  In y (sort_values leb l) <-> In y l.
Proof.
  induction l as [|x l IH]; simpl; [tauto|].
  rewrite insert_In, IH. intuition.
Qed.

Lemma insert_perm (x : A) (l : list A) : Permutation (x :: l) (insert leb x l).
Proof.
  induction l as [|z l IH]; simpl; [reflexivity|].
  destruct (leb x z); [reflexivity|].
  rewrite perm_swap. now constructor.
Qed.

Lemma sort_values_perm (l : list A) : Permutation l (sort_values leb l).
Proof.
  induction l as [|x l IH]; simpl; [constructor|].
  rewrite <- insert_perm. now constructor.
Qed.

Lemma insert_sorted (x : A) (l : list A) :
  StronglySorted R l -> StronglySorted R (insert leb x l).
Proof.
  induction 1 as [|z l Hs IH Hz]; simpl.
  - repeat constructor.
  - destruct (leb x z) eqn:E.
    + constructor; [now constructor|].
      constructor; [now apply leb_true|].
      rewrite Forall_forall in *. intros y Hy.
      eapply R_trans; [apply leb_true; eassumption | now apply Hz].
    + constructor; [assumption|].
      rewrite Forall_forall in *. intros y Hy.
      apply insert_In in Hy. destruct Hy as [->|Hy]; [now apply leb_false | now apply Hz].
Qed.

Lemma sort_values_sorted (l : list A) : StronglySorted R (sort_values leb l).
Proof.
  induction l as [|x l IH]; simpl; [constructor | now apply insert_sorted].
Qed.

Lemma sort_values_id (l : list A) :
  StronglySorted (fun a b => leb a b = true) l -> sort_values leb l = l.
Proof.
  induction 1 as [|z l Hs IH Hz]; simpl; [reflexivity|].
  rewrite IH. destruct l as [|y l']; simpl; [reflexivity|].
  inversion Hz; subst. now rewrite H1.
Qed.
End SortFacts.

(** sorting by an order that follows an integer key sorts the keys *)
Lemma sort_values_by_key {A : Type} (leb : A -> A -> bool) (key : A -> Z) (l : list A) :
  (forall x y, leb x y = true -> key x <= key y) ->
  (forall x y, leb x y = false -> key y <= key x) ->
  StronglySorted (fun a b => key a <= key b) (sort_values leb l).
Proof.
  intros H1 H2. apply sort_values_sorted; [exact H1 | exact H2 |].
  cbv beta. intros. lia.
Qed.

Lemma StronglySorted_filter {A : Type} (R : A -> A -> Prop) (p : A -> bool) (l : list A) :
  StronglySorted R l -> StronglySorted R (filter p l).
Proof.
  induction 1 as [|x l Hs IH Hx]; simpl; [constructor|].
  destruct (p x); [|assumption].
  constructor; [assumption|].
  rewrite Forall_forall in *. intros y Hy. apply filter_In in Hy. now apply Hx.
Qed.

Lemma StronglySorted_map {A B : Type} (R : B -> B -> Prop) (f : A -> B) (l : list A) :
  StronglySorted (fun a b => R (f a) (f b)) l <-> StronglySorted R (map f l).
Proof.
  induction l as [|x l IH]; simpl; split; intros H; try constructor;
    inversion H; subst.
  - now apply IH.
  - rewrite Forall_forall in *. intros y Hy. apply in_map_iff in Hy.
    destruct Hy as [a [<- Ha]]. now apply H3.
  - now apply IH.
  - rewrite Forall_forall in *. intros y Hy. apply H3. now apply in_map.
Qed.

(** a sorted list split around two of its elements *)
Lemma StronglySorted_app_inv {A : Type} (R : A -> A -> Prop) (l1 l2 : list A) :
  StronglySorted R (l1 ++ l2) ->
  StronglySorted R l1 /\ StronglySorted R l2 /\
  (forall a b, In a l1 -> In b l2 -> R a b).
Proof.
  induction l1 as [|x l1 IH]; simpl; intros H.
  - repeat split; [constructor | assumption | intros ? ? []].
  - inversion H; subst. destruct (IH H2) as [H1 [H2' H3']].
    rewrite Forall_forall in H3.
    repeat split; [constructor; [assumption|] | assumption |].
    + rewrite Forall_forall. intros y Hy. apply H3. apply in_or_app. now left.
    + intros a b [<-|Ha] Hb; [apply H3; apply in_or_app; now right | now apply H3'].
Qed.

Lemma mapM_Forall2 {A B : Type} (f : A -> result B) (l : list A) (l' : list B) :
  mapM f l = Ok l' -> Forall2 (fun x y => f x = Ok y) l l'.
Proof.
  revert l'. induction l as [|x l IH]; simpl; intros l' H.
  - injection H as <-. constructor.
  - inv_bind H. inv_bind H. injection H as <-.
    constructor; [assumption | now apply IH].
Qed.

Lemma mapM_raise {A B : Type} (f : A -> result B) (l : list A) (e : exn) :
  mapM f l = Raise e -> exists x, In x l /\ f x = Raise e.
Proof.
  induction l as [|x l IH]; simpl; [discriminate|].
  destruct (f x) as [y|e'] eqn:E; simpl.
  - destruct (mapM f l) as [ys|e'']; simpl; [discriminate|].
    intros H. injection H as ->. destruct IH as [z [Hz Hf]]; eauto.
  - intros H. injection H as ->. eauto.
Qed.

Lemma mapM_total {A B : Type} (f : A -> result B) (l : list A) :
  (forall x, In x l -> succeeds (f x)) -> succeeds (mapM f l).
Proof.
  induction l as [|x l IH]; simpl; intros H; [now eexists|].
  destruct (H x (or_introl eq_refl)) as [y ->]. simpl.
  destruct IH as [ys ->]; [intros; apply H; now right|].
  simpl. now eexists.
Qed.

(* ================================================================== *)
(** ** The loader: shape of the table *)

Section LoaderFacts.
Variable float_of_string : string -> option num.
Variable n : Z.

Local Abbreviation pshares := (parse_shares float_of_string).
Local Abbreviation pvalue := (parse_value float_of_string n).

Lemma parse_shares_ok h r : pshares h = Ok r -> fst r = h.
Proof.
  unfold parse_shares. intros H. inv_bind H.
  now injection H as <-.
Qed.

Lemma parse_value_ok h s c p :
  pvalue (h, s, c) = Ok p ->
  date p = h_date h /\ ticker p = h_ticker h /\ shares p = s /\ change p = c /\
  sell_date p = h_date h + 7 * n /\ quarter p = quarter_label (h_date h).
Proof.
  unfold parse_value. intros H. inv_bind H.
  injection H as <-. simpl. tauto.
Qed.

Lemma normalize_sorted files :
  StronglySorted (fun a b => h_date a <= h_date b) (normalize files).
Proof.
  unfold normalize. apply StronglySorted_filter.
  apply sort_values_by_key; unfold date_ticker_leb; intros x y; lia.
Qed.

(** the previous row of the group, read off the rows above *)
Lemma find_previous (seen : list (holding * num)) (seenp : list position) t :
  Forall2 (fun s p => ticker p = h_ticker (fst s) /\ shares p = snd s) seen seenp ->
  match find (fun p => String.eqb (h_ticker (fst p)) t) seen,
        find (fun p => String.eqb (ticker p) t) seenp with
  | Some s, Some p => shares p = snd s
  | None, None => True
  | _, _ => False
  end.
Proof.
  induction 1 as [|s p seen seenp [Ht Hs] HF IH]; simpl; [exact I|].
  rewrite Ht. destruct (String.eqb (h_ticker (fst s)) t); [assumption | exact IH].
Qed.

Lemma groupby_diff_rows dmin :
  forall rows seen tbl seenp,
    Forall2 (fun x y => pvalue x = Ok y)
      (map (fun rd => (fst rd, change_of dmin (fst rd) (snd rd)))
           (combine rows (groupby_diff seen rows))) tbl ->
    Forall2 (fun s p => ticker p = h_ticker (fst s) /\ shares p = snd s) seen seenp ->
    forall pre r post, tbl = (pre ++ r :: post)%list ->
      change r =
        if at_earliest dmin (date r) then NaN
        else fillna
               match find (fun p => String.eqb (ticker p) (ticker r)) (rev pre ++ seenp)%list with
               | Some p => sub (shares r) (shares p)
               | None => NaN
               end (shares r).
Proof.
  induction rows as [|[h s] rows IH]; simpl; intros seen tbl seenp HF Hseen pre r post ->.
  - inversion HF. now destruct pre.
  - inversion HF as [|x y l l' Hxy HF' E1 E2]; subst.
    apply parse_value_ok in Hxy. destruct Hxy as (Hd & Ht & Hs & Hc & _).
    destruct pre as [|q pre]; simpl in E2; injection E2 as -> ->.
    + simpl. rewrite Hc. unfold change_of. simpl. rewrite Hd, Hs.
      destruct (at_earliest dmin (h_date h)); [reflexivity|].
      pose proof (find_previous seen seenp (h_ticker h) Hseen) as Hf.
      rewrite Ht.
      destruct (find _ seen), (find _ seenp); try contradiction; [now rewrite Hf | reflexivity].
    + simpl. rewrite <- app_assoc. simpl.
      eapply IH; [exact HF' | | reflexivity].
      constructor; [now split | assumption].
Qed.

Lemma Forall2_dates (rows : list (holding * num)) dmin ds (tbl : list position) :
  List.length ds = List.length rows ->
  Forall2 (fun x y => pvalue x = Ok y)
    (map (fun rd => (fst rd, change_of dmin (fst rd) (snd rd))) (combine rows ds)) tbl ->
  map date tbl = map (fun r => h_date (fst r)) rows.
Proof.
  revert ds tbl. induction rows as [|[h s] rows IH]; intros [|d ds] tbl Hl HF;
    simpl in *; try discriminate; inversion HF; subst; [reflexivity|].
  apply parse_value_ok in H1. destruct H1 as (Hd & _). simpl. rewrite Hd.
  f_equal. eapply IH; [|eassumption]. lia.
Qed.

Lemma groupby_diff_length rows : forall seen,
  List.length (groupby_diff seen rows) = List.length rows.
Proof.
  induction rows as [|r rows IH]; simpl; intros; [reflexivity | now rewrite IH].
Qed.

(** The table of the loader, row by row: it is sorted by date, the
    evaluation date and the period label are those of the filing
    date, and the share-change is computed from the nearest row above
    with the same ticker. *)
Lemma read_positions_rows files tbl :
  read_positions float_of_string n files = Ok tbl ->
  StronglySorted (fun a b => date a <= date b) tbl /\
  (forall p, In p tbl ->
     sell_date p = date p + 7 * n /\ quarter p = quarter_label (date p)) /\
  (forall pre r post, tbl = (pre ++ r :: post)%list ->
     change r =
       if at_earliest (list_min (map date tbl)) (date r) then NaN
       else fillna
              match find (fun p => String.eqb (ticker p) (ticker r)) (rev pre) with
              | Some p => sub (shares r) (shares p)
              | None => NaN
              end (shares r)).
Proof.
  unfold read_positions. destruct files as [|f0 files0]; [discriminate|].
  set (files := f0 :: files0). intros H. inv_bind H.
  rename x into rows. apply mapM_Forall2 in Hx, H.
  unfold with_change in H.
  assert (Hdates : map date tbl = map (fun r => h_date (fst r)) rows).
  { eapply Forall2_dates; [|exact H]. apply groupby_diff_length. }
  assert (Hrows : map fst rows = normalize files).
  { clear H Hdates. revert Hx. generalize (normalize files).
    intros l HF. induction HF as [|h r l rows Hr HF IH]; simpl; [reflexivity|].
    apply parse_shares_ok in Hr. now rewrite Hr, IH. }
  split; [|split].
  - apply (StronglySorted_map Z.le date). rewrite Hdates.
    rewrite <- (map_map fst h_date), Hrows.
    apply -> (StronglySorted_map Z.le h_date). apply normalize_sorted.
  - intros p Hp. clear Hdates.
    revert H. generalize (combine rows (groupby_diff [] rows)). intros l HF.
    remember (map _ l) as l' eqn:El'. revert l El'.
    induction HF as [|x y l1 l2 Hxy HF IH]; intros l El'; [contradiction|].
    destruct l as [|[[h s] d] l]; [discriminate|]. injection El' as -> El'.
    destruct Hp as [<-|Hp]; [|eapply IH; eassumption].
    apply parse_value_ok in Hxy. destruct Hxy as (Hd & _ & _ & _ & Hs & Hq).
    now rewrite Hd.
  - intros pre r post E. rewrite <- Hdates in H.
    rewrite (groupby_diff_rows _ rows [] tbl [] H (Forall2_nil _) pre r post E).
    now rewrite app_nil_r.
Qed.
End LoaderFacts.

(* ================================================================== *)
(** ** The share-change *)

Lemma list_min_spec (l : list Z) (m : Z) :
  list_min l = Some m -> In m l /\ forall x, In x l -> m <= x.
Proof.
  destruct l as [|a l]; simpl; [discriminate|]. intros H. injection H as <-.
  induction l as [|b l IH]; simpl.
  - split; [now left | intros x [<-|[]]; lia].
  - destruct IH as [Hin Hle]. split.
    + destruct (Z.min_spec b (fold_right Z.min a l)) as [[_ ->]|[_ ->]]; [tauto|].
      destruct Hin as [<-|Hin]; tauto.
    + intros x [<-|[<-|Hx]].
      * specialize (Hle a (or_introl eq_refl)). lia.
      * lia.
      * specialize (Hle x (or_intror Hx)). lia.
Qed.

Lemma list_max_spec (l : list Z) (m : Z) :
  list_max l = Some m -> In m l /\ forall x, In x l -> x <= m.
Proof.
  destruct l as [|a l]; simpl; [discriminate|]. intros H. injection H as <-.
  induction l as [|b l IH]; simpl.
  - split; [now left | intros x [<-|[]]; lia].
  - destruct IH as [Hin Hle]. split.
    + destruct (Z.max_spec b (fold_right Z.max a l)) as [[_ ->]|[_ ->]]; [|tauto].
      destruct Hin as [<-|Hin]; tauto.
    + intros x [<-|[<-|Hx]].
      * specialize (Hle a (or_introl eq_refl)). lia.
      * lia.
      * specialize (Hle x (or_intror Hx)). lia.
Qed.

Lemma at_earliest_iff (tbl : list position) (r : position) :
  In r tbl ->
  at_earliest (list_min (map date tbl)) (date r) = true <-> earliest tbl (date r).
Proof.
  intros Hr. unfold at_earliest, earliest.
  destruct (list_min (map date tbl)) as [m|] eqn:E.
  - apply list_min_spec in E. destruct E as [Hin Hle]. rewrite Z.eqb_eq. split.
    + intros -> p Hp. apply Hle. now apply in_map.
    + intros H. apply in_map_iff in Hin. destruct Hin as [q [<- Hq]].
      specialize (H q Hq). specialize (Hle (date r) (in_map date _ _ Hr)). lia.
  - destruct tbl; [contradiction | discriminate].
Qed.

Lemma NoDup_map_split {A B : Type} (f : A -> B) (l1 l2 : list A) (a x : A) :
  NoDup (map f (l1 ++ a :: l2)) -> In x (l1 ++ l2) -> f x <> f a.
Proof.
  rewrite map_app. simpl. intros H Hx E. apply NoDup_remove_2 in H. apply H.
  rewrite <- map_app, <- E. now apply in_map.
Qed.

Lemma find_rev_split {A : Type} (f : A -> bool) (l : list A) (x : A) :
  find f (rev l) = Some x ->
  exists l1 l2, l = (l1 ++ x :: l2)%list /\ f x = true /\
                forall y, In y l2 -> f y = false.
Proof.
  induction l as [|a l IH] using rev_ind; [discriminate|].
  rewrite rev_app_distr. simpl. destruct (f a) eqn:Fa.
  - intros H. injection H as <-. exists l, []. repeat split; [assumption | intros ? []].
  - intros H. destruct (IH H) as (l1 & l2 & -> & Hx & Hl2).
    exists l1, (l2 ++ [a])%list. rewrite <- app_assoc. repeat split; [assumption|].
    intros y Hy. apply in_app_or in Hy. destruct Hy as [Hy|[<-|[]]]; auto.
Qed.

Section ShareChange.
Variable tbl : list position.
Hypothesis tbl_sorted : StronglySorted (fun a b => date a <= date b) tbl.
Hypothesis tbl_unique : NoDup (map filing_key tbl).

(** where the rows of a ticker lie around one of them *)
Lemma rows_above pre r post p :
  tbl = (pre ++ r :: post)%list ->
  In p tbl -> date p < date r -> In p pre.
Proof.
  intros E Hp Hd. rewrite E in Hp. pose proof tbl_sorted as Hs. rewrite E in Hs.
  apply in_app_or in Hp. destruct Hp as [Hp|[<-|Hp]]; [assumption | lia |].
  apply StronglySorted_app_inv in Hs. destruct Hs as (_ & Hs & _).
  inversion Hs; subst. rewrite Forall_forall in H2. specialize (H2 p Hp). lia.
Qed.

Lemma above_is_earlier pre r post p :
  tbl = (pre ++ r :: post)%list ->
  In p pre -> ticker p = ticker r -> date p < date r.
Proof.
  intros E Hp Ht.
  assert (Hle : date p <= date r).
  { pose proof tbl_sorted as Hs. rewrite E in Hs.
    apply StronglySorted_app_inv in Hs.
    destruct Hs as (_ & _ & H). apply H; [assumption | now left]. }
  assert (Hne : filing_key p <> filing_key r).
  { pose proof tbl_unique as Hu. rewrite E in Hu.
    eapply NoDup_map_split; [exact Hu|]. apply in_or_app. now left. }
  unfold filing_key in Hne. rewrite Ht in Hne.
  assert (date p <> date r) by congruence. lia.
Qed.

(** the nearest row above with the ticker is the row of the preceding
    filing of the ticker *)
Lemma find_preceding pre r post p :
  tbl = (pre ++ r :: post)%list ->
  preceding tbl p r ->
  find (fun q => String.eqb (ticker q) (ticker r)) (rev pre) = Some p.
Proof.
  intros E (Hp & Ht & Hd & Hmax).
  pose proof (rows_above pre r post p E Hp Hd) as Hpre.
  destruct (find _ (rev pre)) as [p'|] eqn:F.
  - f_equal. apply find_rev_split in F. destruct F as (l1 & l2 & El & Ht' & Hl2).
    apply String.eqb_eq in Ht'.
    assert (Hin' : In p' pre) by (rewrite El; apply in_or_app; right; now left).
    pose proof (above_is_earlier pre r post p' E Hin' Ht') as Hd'.
    assert (Hp'tbl : In p' tbl) by (rewrite E; apply in_or_app; now left).
    pose proof (Hmax p' Hp'tbl Ht' Hd') as Hle.
    rewrite El in Hpre. apply in_app_or in Hpre.
    destruct Hpre as [H1|[<-|H2]]; [exfalso | reflexivity | exfalso].
    + assert (Hle' : date p <= date p').
      { pose proof tbl_sorted as Hs. rewrite E, El in Hs.
        rewrite <- !app_assoc in Hs. apply StronglySorted_app_inv in Hs.
        destruct Hs as (_ & _ & H). apply H; [assumption | now left]. }
      pose proof tbl_unique as Hu. rewrite E, El in Hu.
      rewrite <- !app_assoc in Hu. simpl in Hu.
      apply (NoDup_map_split filing_key l1 _ p' p) in Hu.
      * apply Hu. unfold filing_key. f_equal; [lia | congruence].
      * apply in_or_app. now left.
    + specialize (Hl2 p H2). apply String.eqb_neq in Hl2. contradiction.
  - exfalso. apply in_rev in Hpre. apply (find_none _ _ F p) in Hpre.
    apply String.eqb_neq in Hpre. contradiction.
Qed.

(** the share-change of a row of a table built as the loader does *)
Hypothesis tbl_change :
  forall pre r post, tbl = (pre ++ r :: post)%list ->
    change r =
      if at_earliest (list_min (map date tbl)) (date r) then NaN
      else fillna
             match find (fun p => String.eqb (ticker p) (ticker r)) (rev pre) with
             | Some p => sub (shares r) (shares p)
             | None => NaN
             end (shares r).

Lemma change_seed r :
  In r tbl -> earliest tbl (date r) -> change r = NaN.
Proof.
  intros Hr He. pose proof Hr as Hs. apply in_split in Hs.
  destruct Hs as (pre & post & E). rewrite (tbl_change pre r post E).
  apply (at_earliest_iff tbl r Hr) in He. now rewrite He.
Qed.

Lemma change_first r :
  In r tbl -> ~ earliest tbl (date r) -> first_appearance tbl r ->
  change r = shares r.
Proof.
  intros Hr He Hf. pose proof Hr as Hs. apply in_split in Hs.
  destruct Hs as (pre & post & E). rewrite (tbl_change pre r post E).
  destruct (at_earliest _ _) eqn:Ea;
    [apply (at_earliest_iff tbl r Hr) in Ea; contradiction|].
  destruct (find _ (rev pre)) as [p|] eqn:F; [exfalso | reflexivity].
  apply find_some in F. destruct F as [Hp Ht].
  apply in_rev in Hp. apply String.eqb_eq in Ht.
  pose proof (above_is_earlier pre r post p E Hp Ht).
  assert (In p tbl) by (rewrite E; apply in_or_app; now left).
  specialize (Hf p H0 Ht). lia.
Qed.

Lemma change_preceding r p :
  In r tbl -> preceding tbl p r ->
  is_fin (shares r) = true -> is_fin (shares p) = true ->
  change r = sub (shares r) (shares p).
Proof.
  intros Hr Hp Fr Fp. pose proof Hr as Hs. apply in_split in Hs.
  destruct Hs as (pre & post & E). rewrite (tbl_change pre r post E).
  destruct (at_earliest _ _) eqn:Ea.
  - apply (at_earliest_iff tbl r Hr) in Ea.
    destruct Hp as (Hp & _ & Hd & _). specialize (Ea p Hp). lia.
  - rewrite (find_preceding pre r post p E Hp).
    destruct (shares r), (shares p); try discriminate. reflexivity.
Qed.
End ShareChange.



(* ================================================================== *)
(** ** The request to the price source *)

Section UniqueFacts.
Context {A : Type} (eqb : A -> A -> bool).
Hypothesis eqb_spec : forall x y, eqb x y = true <-> x = y.

Lemma existsb_eqb (x : A) (l : list A) : existsb (eqb x) l = true <-> In x l.
Proof.
  rewrite existsb_exists. split.
  - intros [y [Hy E]]. apply eqb_spec in E. now subst.
  - intros H. exists x. split; [assumption | now apply eqb_spec].
Qed.

Lemma unique_from_In (x : A) (l seen : list A) :
  In x (unique_from eqb seen l) <-> In x l /\ ~ In x seen.
Proof.
  revert seen. induction l as [|a l IH]; simpl; intros seen; [tauto|].
  destruct (existsb (eqb a) seen) eqn:E.
  - apply existsb_eqb in E. rewrite IH. split; [tauto|].
    intros [[->|H] Hn]; tauto.
  - assert (Hn : ~ In a seen) by (rewrite <- existsb_eqb, E; discriminate).
    simpl. rewrite IH. simpl. split.
    + intros [->|[H1 H2]]; tauto.
    + intros [[->|H] Hs]; [now left|].
      destruct (eqb a x) eqn:Eax; [apply eqb_spec in Eax; now left|].
      right. split; [assumption|]. intros [->|H']; [|contradiction].
      assert (eqb x x = true) by now apply eqb_spec. congruence.
Qed.

Lemma unique_In (x : A) (l : list A) : In x (unique eqb l) <-> In x l.
Proof. unfold unique. rewrite unique_from_In. simpl. tauto. Qed.

Lemma unique_from_NoDup (l seen : list A) : NoDup (unique_from eqb seen l).
Proof.
  revert seen. induction l as [|a l IH]; simpl; intros seen; [constructor|].
  destruct (existsb (eqb a) seen); [apply IH|].
  constructor; [|apply IH]. rewrite unique_from_In. simpl. tauto.
Qed.

Lemma unique_NoDup (l : list A) : NoDup (unique eqb l).
Proof. apply unique_from_NoDup. Qed.
End UniqueFacts.

Lemma unique_from_increasing (l seen : list Z) :
  StronglySorted Z.le l -> StronglySorted Z.lt (unique_from Z.eqb seen l).
Proof.
  intros Hs. revert seen. induction Hs as [|a l Hs IH Ha]; simpl; intros seen; [constructor|].
  destruct (existsb (Z.eqb a) seen); [apply IH|].
  constructor; [apply IH|]. rewrite Forall_forall in *. intros x Hx.
  apply (unique_from_In Z.eqb Z.eqb_eq) in Hx. destruct Hx as [Hx Hn].
  specialize (Ha x Hx). simpl in Hn. lia.
Qed.

(** [unique()[1]] of a column sorted by date *)
Lemma second_date (tbl : list position) (d : Z) :
  StronglySorted (fun a b => date a <= date b) tbl ->
  nth_error (distinct_dates tbl) 1 = Some d -> second_earliest tbl d.
Proof.
  intros Hs Hn. apply (StronglySorted_map Z.le date) in Hs.
  pose proof (unique_from_increasing (map date tbl) [] Hs) as Hu.
  unfold distinct_dates, unique in *.
  assert (Hin : forall x, In x (unique_from Z.eqb [] (map date tbl)) <-> In x (map date tbl))
    by (intros x; apply (unique_In Z.eqb Z.eqb_eq)).
  destruct (unique_from Z.eqb [] (map date tbl)) as [|u0 [|u1 rest]]; try discriminate.
  injection Hn as ->.
  inversion Hu as [|? ? Hu' H0]; subst. inversion Hu' as [|? ? _ H1]; subst.
  rewrite Forall_forall in H0, H1.
  assert (Hmin : forall x, In x (map date tbl) -> u0 <= x).
  { intros x Hx. apply Hin in Hx. destruct Hx as [<-|Hx]; [lia|].
    specialize (H0 x Hx). lia. }
  assert (H01 : u0 < d) by (apply H0; now left).
  repeat split.
  - apply Hin. right. now left.
  - intros He. assert (In u0 (map date tbl)) by (apply Hin; now left).
    apply in_map_iff in H. destruct H as [q [Eq Hq]]. specialize (He q Hq). lia.
  - intros p Hp Hne.
    assert (Hd : In (date p) (map date tbl)) by now apply in_map.
    apply Hin in Hd. destruct Hd as [E|[E|Hd]]; [|lia|specialize (H1 _ Hd); lia].
    exfalso. apply Hne. intros q Hq. rewrite <- E. apply Hmin. now apply in_map.
Qed.

(** with two distinct dates in the table, [unique()[1]] is there *)
Lemma two_dates (tbl : list position) (p q : position) :
  In p tbl -> In q tbl -> date p <> date q ->
  exists d, nth_error (distinct_dates tbl) 1 = Some d.
Proof.
  intros Hp Hq Hne. unfold distinct_dates.
  pose proof (unique_NoDup Z.eqb Z.eqb_eq (map date tbl)) as Hnd.
  assert (Hin : forall x, In x (unique Z.eqb (map date tbl)) <-> In x (map date tbl))
    by (intros x; apply (unique_In Z.eqb Z.eqb_eq)).
  pose proof (proj2 (Hin _) (in_map date _ _ Hp)) as H1.
  pose proof (proj2 (Hin _) (in_map date _ _ Hq)) as H2.
  destruct (unique Z.eqb (map date tbl)) as [|u0 [|u1 rest]]; [contradiction| |now eexists].
  destruct H1 as [E1|[]], H2 as [E2|[]]. congruence.
Qed.

Lemma buy_tickers_spec (tbl : list position) :
  NoDup (buy_tickers tbl) /\
  forall t, In t (buy_tickers tbl) <->
            exists r, In r tbl /\ ticker r = t /\ gt0 (change r) = true.
Proof.
  unfold buy_tickers. split; [apply (unique_NoDup String.eqb String.eqb_eq)|].
  intros t. rewrite (unique_In String.eqb String.eqb_eq), in_map_iff. split.
  - intros [r [<- Hr]]. apply filter_In in Hr. exists r. tauto.
  - intros [r (Hr & <- & Hg)]. exists r. split; [reflexivity|]. now apply filter_In.
Qed.

(** C7.  After the loader, with two distinct filing dates in the table:
    the price aligner asks the price source for the weekly prices of
    exactly the tickers that have a positive share-change in some row
    (no row of the earliest date is among them, its change is NaN), from
    the second-earliest distinct filing date to the latest evaluation
    date; the benchmark is asked for over the same window. *)
Theorem price_request (w : World) (self0 self1 : HedgeFund) (p q : position) :
  get_positions w self0 = Ok self1 ->
  let tbl := positions self1 in
  In p tbl -> In q tbl -> date p <> date q ->
  exists start stop self2,
    get_prices w self1 = Ok self2 /\
    price self2 = adj_close w (buy_tickers tbl) start stop /\
    sp500_change self2 =
      (let s := adj_close_of w "VOO" start stop in
       combine (map fst s) (pct_change100 (n_weeks self1) (map snd s))) /\
    NoDup (buy_tickers tbl) /\
    (forall t, In t (buy_tickers tbl) <->
               exists r, In r tbl /\ ticker r = t /\ gt0 (change r) = true) /\
    (forall r, In r tbl -> earliest tbl (date r) -> gt0 (change r) = false) /\
    second_earliest tbl start /\
    latest_evaluation tbl stop.
Proof.
  intros H tbl Hp Hq Hne. unfold get_positions in H. inv_bind H.
  injection H as H.
  assert (Et : x = tbl) by (subst tbl; now rewrite <- H).
  subst x. clear H.
  pose proof (read_positions_rows _ _ _ _ Hx) as (Hs & _ & Hc).
  destruct (two_dates tbl p q Hp Hq Hne) as [start Hstart].
  assert (Hmax : exists stop, list_max (map sell_date tbl) = Some stop).
  { destruct tbl; [contradiction | simpl; now eexists]. }
  destruct Hmax as [stop Hstop].
  exists start, stop. eexists.
  unfold get_prices, query_window. fold tbl. fold (distinct_dates tbl).
  rewrite Hstart, Hstop. cbn [bind price sp500_change].
  split; [reflexivity|]. split; [reflexivity|]. split; [reflexivity|].
  destruct (buy_tickers_spec tbl) as [Hnd Hbuy].
  split; [exact Hnd|]. split; [exact Hbuy|]. split; [|split].
  - intros r Hr He. rewrite (change_seed tbl Hc r Hr He). reflexivity.
  - now apply second_date.
  - apply list_max_spec in Hstop. destruct Hstop as [Hin Hle]. split; [assumption|].
    intros r Hr. apply Hle. now apply in_map.
Qed.

(* ================================================================== *)
(** ** Nearest-date merge *)

Lemma find_split {A : Type} (f : A -> bool) (l : list A) (x : A) :
  find f l = Some x ->
  exists l1 l2, l = (l1 ++ x :: l2)%list /\ f x = true /\
                forall y, In y l1 -> f y = false.
Proof.
  induction l as [|a l IH]; simpl; [discriminate|].
  destruct (f a) eqn:Fa.
  - intros H. injection H as <-. exists [], l. repeat split; [assumption | intros ? []].
  - intros H. destruct (IH H) as (l1 & l2 & -> & Hx & Hl1).
    exists (a :: l1), l2. repeat split; [assumption|].
    intros y [<-|Hy]; auto.
Qed.

Section AsofFacts.
Context {A : Type} (on : A -> Z).

Lemma is_sorted_sorted (l : list A) :
  is_sorted on l = true -> StronglySorted (fun a b => on a <= on b) l.
Proof.
  induction l as [|x l IH]; [constructor|]. simpl.
  destruct l as [|y l']; [repeat constructor|].
  intros H. apply andb_true_iff in H. destruct H as [Hxy Hs].
  specialize (IH Hs). constructor; [assumption|].
  inversion IH; subst. rewrite Forall_forall in *.
  intros z [<-|Hz]; [lia|]. specialize (H2 z Hz). lia.
Qed.

Lemma sorted_is_sorted (l : list A) :
  StronglySorted (fun a b => on a <= on b) l -> is_sorted on l = true.
Proof.
  induction 1 as [|x l Hs IH Hx]; [reflexivity|]. simpl.
  destruct l as [|y l']; [reflexivity|].
  rewrite IH, andb_true_r. inversion Hx; subst. lia.
Qed.

Variable key : Z.
Variable l : list A.
Hypothesis l_sorted : StronglySorted (fun a b => on a <= on b) l.

Lemma asof_backward_spec b :
  asof_backward on key l = Some b ->
  In b l /\ on b <= key /\ forall o, In o l -> on o <= on b \/ key < on o.
Proof.
  unfold asof_backward, find_last. intros H. apply find_rev_split in H.
  destruct H as (l1 & l2 & E & Hb & Hl2). split; [|split].
  - rewrite E. apply in_or_app. right. now left.
  - lia.
  - intros o Ho. rewrite E in Ho. apply in_app_or in Ho.
    pose proof l_sorted as Hs. rewrite E in Hs.
    apply StronglySorted_app_inv in Hs. destruct Hs as (_ & _ & H12).
    destruct Ho as [Ho|[<-|Ho]].
    + left. apply H12; [assumption | now left].
    + left. lia.
    + right. specialize (Hl2 o Ho). lia.
Qed.

Lemma asof_forward_spec f :
  asof_forward on key l = Some f ->
  In f l /\ key <= on f /\ forall o, In o l -> on o < key \/ on f <= on o.
Proof.
  unfold asof_forward. intros H. apply find_split in H.
  destruct H as (l1 & l2 & E & Hf & Hl1). split; [|split].
  - rewrite E. apply in_or_app. right. now left.
  - lia.
  - intros o Ho. rewrite E in Ho. apply in_app_or in Ho.
    pose proof l_sorted as Hs. rewrite E in Hs.
    apply StronglySorted_app_inv in Hs. destruct Hs as (_ & Hs & _).
    inversion Hs; subst. rewrite Forall_forall in H2.
    destruct Ho as [Ho|[<-|Ho]].
    + left. specialize (Hl1 o Ho). lia.
    + right. lia.
    + right. now apply H2.
Qed.

(** the row taken is a row of the table, no row is nearer to the
    key, and of the rows as near as it none is earlier *)
Lemma asof_nearest_some x :
  asof_nearest on key l = Some x ->
  In x l /\
  forall o, In o l ->
    Z.abs (on x - key) <= Z.abs (on o - key) /\
    (Z.abs (on x - key) = Z.abs (on o - key) -> on x <= on o).
Proof.
  unfold asof_nearest.
  destruct (asof_backward on key l) as [b|] eqn:Eb;
    destruct (asof_forward on key l) as [f|] eqn:Ef.
  - apply asof_backward_spec in Eb. apply asof_forward_spec in Ef.
    destruct Eb as (Hb & Hbk & Hbo), Ef as (Hf & Hfk & Hfo).
    destruct (key - on b <=? on f - key) eqn:E; intros H; injection H as <-;
      (split; [assumption|]); intros o Ho;
      specialize (Hbo o Ho); specialize (Hfo o Ho); lia.
  - apply asof_backward_spec in Eb. destruct Eb as (Hb & Hbk & Hbo).
    intros H; injection H as <-. split; [assumption|]. intros o Ho.
    specialize (Hbo o Ho).
    pose proof (find_none _ _ Ef o Ho) as Hn. simpl in Hn. lia.
  - apply asof_forward_spec in Ef. destruct Ef as (Hf & Hfk & Hfo).
    intros H; injection H as <-. split; [assumption|]. intros o Ho.
    specialize (Hfo o Ho).
    unfold asof_backward, find_last in Eb.
    pose proof (find_none _ _ Eb o (proj1 (in_rev _ _) Ho)) as Hn. simpl in Hn. lia.
  - discriminate.
Qed.

Lemma asof_nearest_none : asof_nearest on key l = None -> l = [].
Proof.
  unfold asof_nearest.
  destruct (asof_backward on key l) as [b|] eqn:Eb;
    destruct (asof_forward on key l) as [f|] eqn:Ef;
    try destruct (_ <=? _); try discriminate.
  intros _. destruct l as [|a l']; [reflexivity|]. exfalso.
  unfold asof_backward, find_last in Eb. unfold asof_forward in Ef.
  assert (Ha : In a (a :: l')) by now left.
  pose proof (find_none _ _ Ef a Ha) as H1.
  pose proof (find_none _ _ Eb a (proj1 (in_rev _ _) Ha)) as H2.
  simpl in H1, H2. lia.
Qed.
End AsofFacts.

(* ================================================================== *)
(** ** The composer *)

Lemma dict_get_set {V : Type} (k : string) (v : V) (d : list (string * V)) :
  dict_get k (dict_set k v d) = Some v.
Proof.
  induction d as [|[k' v'] d IH]; simpl.
  - now rewrite String.eqb_refl.
  - destruct (String.eqb k' k) eqn:E; simpl; [now rewrite String.eqb_refl|].
    now rewrite E.
Qed.

Lemma merge_weight_rows positions pc rows :
  merge_weight positions pc = Ok rows ->
  StronglySorted (fun a b => o_sell_date a <= o_sell_date b) pc /\
  rows = map (fun p =>
           {| p_pos := p; p_price_change := nearest_return pc p;
              p_weight := weight_of positions p;
              p_performance := mul (nearest_return pc p) (weight_of positions p) |})
         positions.
Proof.
  unfold merge_weight.
  destruct (is_sorted sell_date positions) eqn:E1; [|discriminate].
  destruct (is_sorted o_sell_date pc) eqn:E2; [|discriminate].
  simpl. intros H. injection H as <-. split; [|reflexivity].
  now apply is_sorted_sorted.
Qed.

Lemma create_portfolio_rows a self self' :
  create_portfolio a self = Ok self' ->
  exists rows,
    merge_weight (positions self) (price_change self) = Ok rows /\
    dict_get a (portfolios self') = Some rows /\
    dict_get a (performance self') = Some (period_returns rows) /\
    positions self' = positions self /\ price_change self' = price_change self /\
    sp500_change self' = sp500_change self.
Proof.
  unfold create_portfolio. intros H. inv_bind H. injection H as <-.
  exists x. simpl. rewrite !dict_get_set. tauto.
Qed.

(** *** the merged return *)

Lemma nearest_return_spec pc p :
  StronglySorted (fun a b => o_sell_date a <= o_sell_date b) pc ->
  (exists o, nearest_observation pc p o /\ nearest_return pc p = o_price_change o) \/
  ((forall o, In o pc -> o_ticker o <> ticker p) /\ nearest_return pc p = NaN).
Proof.
  intros Hs. unfold nearest_return.
  set (cands := filter (fun o => String.eqb (o_ticker o) (ticker p)) pc).
  assert (Hc : StronglySorted (fun a b => o_sell_date a <= o_sell_date b) cands)
    by now apply StronglySorted_filter.
  destruct (asof_nearest o_sell_date (sell_date p) cands) as [o|] eqn:E.
  - left. exists o. split; [|reflexivity].
    apply (asof_nearest_some o_sell_date _ _ Hc) in E. destruct E as [Hin Hbest].
    apply filter_In in Hin. destruct Hin as [Hin Ht]. apply String.eqb_eq in Ht.
    split; [assumption|]. split; [assumption|]. intros o' Ho' Ht'.
    apply Hbest. apply filter_In. split; [assumption | now apply String.eqb_eq].
  - right. apply asof_nearest_none in E; [|exact Hc]. split; [|reflexivity].
    intros o Ho Ht. assert (In o cands) by (apply filter_In; split;
      [assumption | now apply String.eqb_eq]).
    rewrite E in H. contradiction.
Qed.

(** *** sums of cells *)

Lemma fold_add_fin (qs : list Q) (a : Q) :
  fold_left add (map Fin qs) (Fin a) = Fin (fold_left Qplus qs a).
Proof.
  revert a. induction qs as [|q qs IH]; simpl; intros a; [reflexivity | apply IH].
Qed.

Lemma sum_fin (qs : list Q) : Num.sum (map Fin qs) = Fin (fold_left Qplus qs 0%Q).
Proof.
  unfold Num.sum. rewrite <- fold_add_fin. f_equal.
  induction qs as [|q qs IH]; simpl; [reflexivity | now rewrite IH].
Qed.

Lemma all_fin {A : Type} (f : A -> num) (l : list A) :
  (forall x, In x l -> is_fin (f x) = true) -> exists qs, map f l = map Fin qs.
Proof.
  induction l as [|x l IH]; intros H; [now exists []|].
  destruct IH as [qs E]; [intros; apply H; now right|].
  specialize (H x (or_introl eq_refl)). simpl.
  destruct (f x) as [q| | |] eqn:Ex; try discriminate.
  exists (q :: qs). simpl. now rewrite E.
Qed.

Lemma qsum_div (S : Q) (vs : list Q) (a b : Q) :
  (a == b / S)%Q ->
  (fold_left Qplus (map (fun v => v / S) vs) a == fold_left Qplus vs b / S)%Q.
Proof.
  revert a b. induction vs as [|v vs IH]; simpl; intros a b H; [assumption|].
  apply IH. rewrite H. unfold Qdiv. ring.
Qed.

Lemma qsum_nonneg_zero (vs : list Q) (a : Q) :
  (0 <= a)%Q -> (forall v, In v vs -> (0 <= v)%Q) ->
  (fold_left Qplus vs a == 0)%Q ->
  (a == 0)%Q /\ forall v, In v vs -> (v == 0)%Q.
Proof.
  revert a. induction vs as [|v vs IH]; simpl; intros a Ha Hv H.
  - split; [assumption | intros ? []].
  - assert (H0 : (0 <= v)%Q) by (apply Hv; now left).
    destruct (IH (a + v)%Q) as [Hav Hvs]; [lra | intros; apply Hv; now right | assumption|].
    split; [lra|]. intros u [<-|Hu]; [lra | now apply Hvs].
Qed.

(** *** the weights of a period *)

Section Weights.
Variable positions : list position.
Variable pc : list observation.
Variable rows : list holding_return.
Hypothesis merged : merge_weight positions pc = Ok rows.
Variable q : string.

Local Abbreviation period := (filter (in_quarter q) rows).
Local Abbreviation disclosed :=
  (filter (fun p => String.eqb (quarter p) q) positions).
Local Abbreviation total := (Num.sum (map value disclosed)).

Lemma period_positions : map p_pos period = disclosed.
Proof.
  destruct (merge_weight_rows _ _ _ merged) as [_ ->].
  rewrite filter_map_swap, map_map. simpl. rewrite map_id.
  apply filter_ext. intros p. reflexivity.
Qed.

Lemma period_weight r : In r period -> p_weight r = div (value (p_pos r)) total.
Proof.
  intros Hr. apply filter_In in Hr. destruct Hr as [Hr Hq].
  destruct (merge_weight_rows _ _ _ merged) as [_ E]. rewrite E in Hr.
  apply in_map_iff in Hr. destruct Hr as [p [<- Hp]]. simpl.
  unfold in_quarter in Hq. simpl in Hq. apply String.eqb_eq in Hq.
  unfold weight_of. now rewrite Hq.
Qed.

Lemma period_weights_map :
  map p_weight period = map (fun x => div x total) (map value disclosed).
Proof.
  transitivity (map (fun r => div (value (p_pos r)) total) period).
  - apply map_ext_in. intros r Hr. now apply period_weight.
  - rewrite <- (map_map p_pos (fun p => div (value p) total)), period_positions.
    now rewrite map_map.
Qed.

Lemma weights_sum_one :
  (forall r, In r period -> is_fin (value (p_pos r)) = true) ->
  ~ total ≡ Fin 0 -> Num.sum (map p_weight period) ≡ Fin 1.
Proof.
  intros Hfin Hnz. rewrite period_weights_map.
  destruct (all_fin value disclosed) as [vs Evs].
  { intros p Hp. rewrite <- period_positions in Hp. apply in_map_iff in Hp.
    destruct Hp as [r [<- Hr]]. now apply Hfin. }
  rewrite Evs in *. rewrite sum_fin in *. simpl in Hnz.
  rewrite map_map. simpl.
  destruct (Qeq_bool (fold_left Qplus vs 0%Q) 0) eqn:E;
    [apply Qeq_bool_iff in E; contradiction|].
  rewrite <- (map_map (fun v => (v / fold_left Qplus vs 0)%Q) Fin), sum_fin. simpl.
  rewrite (qsum_div _ vs 0%Q 0%Q); [|unfold Qdiv; ring].
  field. exact Hnz.
Qed.

Lemma weights_zero_total :
  (forall r, In r period -> exists v, value (p_pos r) = Fin v /\ (0 <= v)%Q) ->
  total ≡ Fin 0 -> forall r, In r period -> p_weight r = NaN.
Proof.
  intros Hv Hz r Hr. rewrite (period_weight r Hr).
  destruct (all_fin value disclosed) as [vs Evs].
  { intros p Hp. rewrite <- period_positions in Hp. apply in_map_iff in Hp.
    destruct Hp as [r' [<- Hr']]. destruct (Hv r' Hr') as [v [-> _]]. reflexivity. }
  rewrite Evs in *. rewrite sum_fin in *. simpl in Hz.
  destruct (Hv r Hr) as [v [Ev H0]]. rewrite Ev. simpl.
  apply Qeq_bool_iff in Hz. rewrite Hz.
  assert (Hall : forall u, In u vs -> (u == 0)%Q).
  { apply (qsum_nonneg_zero vs 0%Q); [lra | | now apply Qeq_bool_iff].
    intros u Hu. assert (In (Fin u) (map value disclosed))
      by (rewrite Evs; now apply in_map).
    rewrite <- period_positions, map_map in H. apply in_map_iff in H.
    destruct H as [r' [E' Hr']]. destruct (Hv r' Hr') as [v' [Ev' H0']].
    rewrite Ev' in E'. now injection E' as <-. }
  assert (Hin : In (Fin v) (map Fin vs)).
  { rewrite <- Evs, <- period_positions, map_map. apply in_map_iff.
    exists r. split; [exact Ev | exact Hr]. }
  apply in_map_iff in Hin. destruct Hin as [u [Eu Hu]]. injection Eu as ->.
  unfold signed_inf. specialize (Hall v Hu).
  apply Qeq_alt in Hall. now rewrite Hall.
Qed.
End Weights.

(** C3.  In a portfolio, for a period label [q]: the weight of a row is
    its value divided by the sum of the values of all disclosed rows of
    the period (whether or not a return was merged to them); where these
    values are numbers and their sum is not zero the weights of the
    period sum to 1, so within 1e-6 of it; where they are non-negative
    numbers of sum zero every weight of the period is NaN. *)
Theorem period_weights (a : string) (self self' : HedgeFund) (q : string) :
  create_portfolio a self = Ok self' ->
  exists rows,
    dict_get a (portfolios self') = Some rows /\
    map p_pos rows = positions self /\
    let period := filter (in_quarter q) rows in
    let total :=
      Num.sum (map value
        (filter (fun p => String.eqb (quarter p) q) (positions self))) in
    (forall r, In r period -> p_weight r = div (value (p_pos r)) total) /\
    ((forall r, In r period -> is_fin (value (p_pos r)) = true) ->
     ~ total ≡ Fin 0 ->
     Num.sum (map p_weight period) ≡ Fin 1 /\
     within (Num.sum (map p_weight period)) 1 (1 # 1000000)) /\
    ((forall r, In r period -> exists v, value (p_pos r) = Fin v /\ (0 <= v)%Q) ->
     total ≡ Fin 0 ->
     forall r, In r period -> p_weight r = NaN).
Proof.
  intros H. apply create_portfolio_rows in H.
  destruct H as (rows & Hm & Hp & _). exists rows. split; [assumption|].
  split.
  { destruct (merge_weight_rows _ _ _ Hm) as [_ ->]. rewrite map_map. simpl.
    apply map_id. }
  cbv zeta. split; [|split].
  - intros r Hr. now apply (period_weight _ _ _ Hm).
  - intros Hf Hnz. pose proof (weights_sum_one _ _ _ Hm q Hf Hnz) as H1.
    split; [exact H1|].
    unfold within.
    destruct (Num.sum (map p_weight _)) as [s| | |]; cbn [Num.eq] in H1;
      try contradiction.
    apply Qabs_Qle_condition. split; lra.
  - intros Hv Hz. now apply (weights_zero_total _ _ _ Hm).
Qed.

(** *** the periods *)

Lemma period_key_eqb_spec (x y : string * Z) :
  period_key_eqb x y = true <-> x = y.
Proof.
  destruct x as [x1 x2], y as [y1 y2]. unfold period_key_eqb. simpl.
  rewrite andb_true_iff, String.eqb_eq, Z.eqb_eq. split.
  - intros [-> ->]. reflexivity.
  - intros H. injection H as -> ->. tauto.
Qed.

Lemma groupby_sum_In (rows : list holding_return) (pr : period_return) :
  In pr (groupby_sum rows) ->
  In (pr_quarter pr, pr_sell_date pr) (map period_key rows) /\
  pr_performance pr =
    Num.sum (map p_performance
      (filter (fun r => period_key_eqb (period_key r) (pr_quarter pr, pr_sell_date pr))
              rows)).
Proof.
  unfold groupby_sum. intros H. apply in_map_iff in H.
  destruct H as [[k1 k2] [<- Hk]]. simpl.
  apply (proj1 (unique_In period_key_eqb period_key_eqb_spec _ _)) in Hk.
  split; [exact Hk | reflexivity].
Qed.

Lemma groupby_sum_keys (rows : list holding_return) :
  map (fun pr => (pr_quarter pr, pr_sell_date pr)) (groupby_sum rows)
  = unique period_key_eqb (map period_key rows).
Proof.
  unfold groupby_sum. rewrite map_map. simpl.
  rewrite <- (map_id (unique _ _)) at 2. apply map_ext. now intros [k1 k2].
Qed.

Lemma set_loc0_nan_spec (l : list period_return) :
  match set_loc0_nan l with
  | Rows (r0 :: rest) =>
      exists r, l = r :: rest /\ pr_quarter r0 = pr_quarter r /\
                pr_sell_date r0 = pr_sell_date r /\ pr_performance r0 = NaN
  | Rows [] => False
  | Enlarged => l = []
  end.
Proof.
  destruct l as [|r l]; simpl; [reflexivity|]. exists r. tauto.
Qed.

(** a table whose rows carry the evaluation date and the label of their
    filing date has one period per evaluation date *)
Lemma period_dates_distinct (n : Z) (rows : list holding_return) :
  (forall r, In r rows ->
     sell_date (p_pos r) = date (p_pos r) + 7 * n /\
     quarter (p_pos r) = quarter_label (date (p_pos r))) ->
  NoDup (map pr_sell_date (groupby_sum rows)).
Proof.
  intros Hrows.
  replace (map pr_sell_date (groupby_sum rows))
    with (map snd (unique period_key_eqb (map period_key rows)))
    by (rewrite <- groupby_sum_keys, map_map; reflexivity).
  apply NoDup_map_NoDup_ForallPairs;
    [|apply (unique_NoDup period_key_eqb period_key_eqb_spec)].
  intros k k' Hk Hk' E.
  apply (proj1 (unique_In period_key_eqb period_key_eqb_spec _ _)) in Hk, Hk'.
  apply in_map_iff in Hk, Hk'.
  destruct Hk as [r [<- Hr]], Hk' as [r' [<- Hr']].
  destruct (Hrows r Hr) as [Hs Hq], (Hrows r' Hr') as [Hs' Hq'].
  unfold period_key in *. simpl in E. f_equal; [|assumption].
  rewrite Hq, Hq'. f_equal. lia.
Qed.


(** *** the return of a period *)

Lemma isna_mul (a b : num) :
  not_inf a = true -> not_inf b = true ->
  negb (isna (mul a b)) = negb (isna a) && negb (isna b).
Proof. destruct a, b; simpl; try discriminate; reflexivity. Qed.

Lemma map_filter_ext_in {A B : Type} (f g : A -> B) (p q : A -> bool) (l : list A) :
  (forall x, In x l -> p x = q x /\ f x = g x) ->
  map f (filter p l) = map g (filter q l).
Proof.
  induction l as [|x l IH]; simpl; intros H; [reflexivity|].
  destruct (H x (or_introl eq_refl)) as [<- Hf].
  assert (E : map f (filter p l) = map g (filter q l))
    by (apply IH; intros; apply H; now right).
  destruct (p x); simpl; now rewrite ?Hf, E.
Qed.

Lemma filter_filter_and {A : Type} (p q : A -> bool) (l : list A) :
  filter q (filter p l) = filter (fun x => p x && q x) l.
Proof.
  induction l as [|x l IH]; simpl; [reflexivity|].
  destruct (p x); simpl; [destruct (q x)|]; now rewrite IH.
Qed.

(** a value over the sum of non-negative values is a number or NaN *)
Lemma div_total_not_inf (l : list position) (p : position) :
  (forall r, In r l -> exists v, value r = Fin v /\ (0 <= v)%Q) ->
  In p l -> not_inf (div (value p) (Num.sum (map value l))) = true.
Proof.
  intros Hv Hp.
  destruct (all_fin value l) as [vs Evs].
  { intros r Hr. destruct (Hv r Hr) as [v [-> _]]. reflexivity. }
  rewrite Evs, sum_fin. destruct (Hv p Hp) as [v [Ev H0]]. rewrite Ev. simpl.
  destruct (Qeq_bool (fold_left Qplus vs 0%Q) 0) eqn:E; [|reflexivity].
  apply Qeq_bool_iff in E.
  assert (Hall : forall u, In u vs -> (u == 0)%Q).
  { apply (qsum_nonneg_zero vs 0%Q); [lra | | assumption].
    intros u Hu. assert (H : In (Fin u) (map value l)) by (rewrite Evs; now apply in_map).
    apply in_map_iff in H. destruct H as [r [Er Hr]].
    destruct (Hv r Hr) as [v' [Ev' H0']]. rewrite Ev' in Er. now injection Er as <-. }
  assert (Hin : In (Fin v) (map Fin vs)) by (rewrite <- Evs, <- Ev; now apply in_map).
  apply in_map_iff in Hin. destruct Hin as [u [Eu Hu]]. injection Eu as ->.
  specialize (Hall v Hu). apply Qeq_alt in Hall. unfold signed_inf. now rewrite Hall.
Qed.

Lemma weight_of_not_inf (positions : list position) (p : position) :
  (forall r, In r positions -> exists v, value r = Fin v /\ (0 <= v)%Q) ->
  In p positions -> not_inf (weight_of positions p) = true.
Proof.
  intros Hv Hp. unfold weight_of. apply div_total_not_inf.
  - intros r Hr. apply filter_In in Hr. now apply Hv.
  - apply filter_In. split; [assumption | apply String.eqb_refl].
Qed.

Lemma nearest_return_not_inf (pc : list observation) (p : position) :
  (forall o, In o pc -> not_inf (o_price_change o) = true) ->
  not_inf (nearest_return pc p) = true.
Proof.
  intros H. unfold nearest_return, asof_nearest.
  set (cands := filter _ pc).
  assert (Hc : forall o, In o cands -> not_inf (o_price_change o) = true).
  { intros o Ho. apply filter_In in Ho. now apply H. }
  destruct (asof_backward _ _ cands) as [b|] eqn:Eb;
    destruct (asof_forward _ _ cands) as [f|] eqn:Ef; try reflexivity.
  - unfold asof_backward, find_last in Eb. apply find_some in Eb, Ef.
    destruct (sell_date p - o_sell_date b <=? _); apply Hc; [apply in_rev|]; tauto.
  - unfold asof_backward, find_last in Eb. apply find_some in Eb.
    apply Hc. apply in_rev. tauto.
  - apply find_some in Ef. apply Hc. tauto.
Qed.

Lemma group_sum_weighted (rows : list holding_return) (k : string * Z) :
  (forall r, In r rows ->
     p_performance r = mul (p_price_change r) (p_weight r) /\
     not_inf (p_price_change r) = true /\ not_inf (p_weight r) = true) ->
  Num.sum (map p_performance
             (filter (fun r => period_key_eqb (period_key r) k) rows))
  = weighted_sum rows k.
Proof.
  intros H. unfold Num.sum, weighted_sum. f_equal.
  rewrite filter_map_swap, filter_filter_and.
  apply map_filter_ext_in. intros r Hr. destruct (H r Hr) as (Hp & H1 & H2).
  split; [|assumption]. f_equal. rewrite Hp. now apply isna_mul.
Qed.


(* ================================================================== *)
(** ** The comparator *)

Lemma take_seq {A : Type} (d : A) (col : list A) :
  take d (seq 0 (List.length col)) col = col.
Proof.
  unfold take. induction col as [|x col IH]; [reflexivity|].
  cbn [List.length seq map nth]. f_equal.
  rewrite <- seq_shift, map_map. exact IH.
Qed.

Lemma combine_seq_sorted (keys : list Z) (start : nat) :
  StronglySorted Z.le keys ->
  StronglySorted (fun a b : Z * nat => (fst a <=? fst b) = true)
    (combine keys (seq start (List.length keys))).
Proof.
  intros Hs. revert start. induction Hs as [|k keys Hs IH Hk]; intros start;
    [constructor|].
  cbn [List.length seq combine]. constructor; [apply IH|].
  rewrite Forall_forall in *. intros [k' i] Hin. apply in_combine_l in Hin.
  simpl. specialize (Hk k' Hin). lia.
Qed.

Lemma map_snd_combine_seq (keys : list Z) (start : nat) :
  map snd (combine keys (seq start (List.length keys))) = seq start (List.length keys).
Proof.
  revert start. induction keys as [|k keys IH]; intros start; [reflexivity|].
  cbn [List.length seq combine map snd]. now rewrite IH.
Qed.

(** sorted keys are left in place *)
Lemma argsort_sorted (keys : list Z) :
  StronglySorted Z.le keys -> argsort keys = seq 0 (List.length keys).
Proof.
  intros Hs. unfold argsort.
  rewrite sort_values_id by now apply combine_seq_sorted.
  apply map_snd_combine_seq.
Qed.

Lemma is_sorted_id (l : list Z) :
  is_sorted (fun d : Z => d) l = true -> StronglySorted Z.le l.
Proof. intros H. now apply is_sorted_sorted in H. Qed.

Lemma labels_round (f : frame) : labels (round_frame f) = labels f.
Proof. unfold labels, round_frame, map_floats. simpl. now rewrite map_map. Qed.

Lemma labels_sort (f : frame) : labels (sort_by_sell_date f) = labels f.
Proof. unfold labels, sort_by_sell_date. simpl. now rewrite map_map. Qed.

Lemma has_label_false (c : string) (f : frame) :
  has_label c f = false <-> ~ In c (labels f).
Proof.
  unfold has_label. rewrite <- (existsb_eqb String.eqb String.eqb_eq).
  destruct (existsb _ _); split; intros; try discriminate; try reflexivity.
  exfalso. now apply H.
Qed.

Lemma dict_get_none {V : Type} (k : string) (d : list (string * V)) :
  ~ In k (map fst d) -> dict_get k d = None.
Proof.
  induction d as [|[k' v] d IH]; simpl; intros H; [reflexivity|].
  destruct (String.eqb k' k) eqn:E; [apply String.eqb_eq in E; tauto|].
  apply IH. tauto.
Qed.

Lemma dict_set_labels {V : Type} (k c : string) (v : V) (d : list (string * V)) :
  In c (map fst (dict_set k v d)) -> c = k \/ In c (map fst d).
Proof.
  induction d as [|[k' v'] d IH]; simpl.
  - intros [<-|[]]. now left.
  - destruct (String.eqb k' k); simpl; intros [<-|H]; auto.
    destruct (IH H); auto.
Qed.

(** the comparison before and after the last line: rounding and
    sorting a table that [merge_asof] accepted changes no date *)
Lemma sort_round_sorted (f : frame) :
  StronglySorted Z.le (sell_date_col f) ->
  sell_date_col (sort_by_sell_date (round_frame f)) = sell_date_col f.
Proof.
  intros Hs. unfold sort_by_sell_date. cbn [sell_date_col round_frame map_floats].
  rewrite argsort_sorted by assumption. apply take_seq.
Qed.

Lemma merge_benchmark_ok (f : frame) sp (m : frame) :
  merge_benchmark f sp = Ok m ->
  StronglySorted Z.le (sell_date_col f) /\
  sell_date_col m = sell_date_col f /\ quarter_col m = quarter_col f /\
  (forall c, In c (labels m) ->
     In c (labels f) \/ In c ["VOO"; "VOO_x"; "VOO_y"]%string) /\
  (has_label "VOO" f = false ->
   float_cols m =
     (float_cols f ++ [("VOO"%string, map (benchmark_at sp) (sell_date_col f))])%list).
Proof.
  unfold merge_benchmark.
  destruct (is_sorted (fun d : Z => d) (sell_date_col f)) eqn:E1; [|discriminate].
  destruct (is_sorted fst sp); [|discriminate]. simpl.
  intros H. injection H as <-. split; [now apply is_sorted_id|].
  destruct (has_label "VOO" f) eqn:Ev; cbn [sell_date_col quarter_col set_floats];
    (split; [reflexivity|]); (split; [reflexivity|]); split; try discriminate.
  - intros c Hc. unfold labels, set_floats in *. cbn [float_cols] in Hc.
    rewrite map_app in Hc. apply in_app_or in Hc. destruct Hc as [Hc|Hc].
    + rewrite map_map in Hc. apply in_map_iff in Hc. destruct Hc as [[c' col] [E Hin]].
      simpl in E. destruct (String.eqb c' "VOO").
      * right. simpl in E. subst c. simpl. tauto.
      * left. subst c. now apply (in_map fst) in Hin.
    + right. simpl in Hc. simpl. tauto.
  - intros c Hc. unfold labels, set_floats in *. cbn [float_cols] in Hc.
    rewrite map_app in Hc. apply in_app_or in Hc. destruct Hc as [Hc|Hc];
      [now left | right; simpl in *; tauto].
  - reflexivity.
Qed.

Lemma add_outperformance_absent (f m : frame) :
  ~ In "performance"%string (labels f) ->
  add_outperformance f = Ok m -> m = f.
Proof.
  intros H. unfold add_outperformance. rewrite (dict_get_none _ _ H).
  intros E. now injection E.
Qed.

Lemma mapM_table_rows (tables : list (string * performance_table)) named :
  mapM (fun at_ => rows <- table_rows (snd at_) ;; Ok (fst at_, rows)) tables = Ok named ->
  map fst named = map fst tables.
Proof.
  intros H. apply mapM_Forall2 in H.
  induction H as [|[a t] [a' r] l l' Hx HF IH]; simpl; [reflexivity|].
  inv_bind Hx. injection Hx as <- _. now rewrite IH.
Qed.

Lemma concat_frame_labels perf f c :
  concat_frame perf = Ok f -> In c (labels f) -> In c (map fst perf).
Proof.
  unfold concat_frame. destruct (existsb _ _); [discriminate|].
  intros H. injection H as <-. unfold labels. cbn [float_cols].
  rewrite map_map. simpl. intros Hc. apply in_map_iff in Hc.
  destruct Hc as [[a r] [<- Hin]]. apply filter_In in Hin. simpl.
  apply in_map_iff. exists (a, r). tauto.
Qed.

Lemma add_outperformance_dates (f m : frame) :
  add_outperformance f = Ok m ->
  sell_date_col m = sell_date_col f /\ quarter_col m = quarter_col f.
Proof.
  unfold add_outperformance.
  destruct (dict_get "performance" (float_cols f)); [|intros H; now injection H as <-].
  destruct (dict_get "VOO" (float_cols f)); [|discriminate].
  intros H. injection H as <-. split; reflexivity.
Qed.

(** the steps of [calculate_returns] *)
Lemma calculate_returns_inv (self self' : HedgeFund) :
  calculate_returns self = Ok self' ->
  exists self1 perf merged cmp,
    match performance self with
    | [] => create_portfolio "simple" self
    | _ => Ok self
    end = Ok self1 /\
    match performance self1 with
    | [] => Raise IndexError
    | [(_, t)] => rows <- table_rows t ;; Ok (single_frame rows)
    | tables =>
        named <- mapM (fun at_ => rows <- table_rows (snd at_) ;;
                                  Ok (fst at_, rows)) tables ;;
        concat_frame named
    end = Ok perf /\
    merge_benchmark perf (sp500_change self1) = Ok merged /\
    add_outperformance merged = Ok cmp /\
    comparison self' = sort_by_sell_date (round_frame cmp).
Proof.
  unfold calculate_returns. intros H.
  inv_bind H. rename x into self1. inv_bind H. rename x into perf.
  inv_bind H. rename x into merged. inv_bind H. rename x into cmp.
  injection H as <-. exists self1, perf, merged, cmp. tauto.
Qed.

Lemma combine_map {A B C : Type} (f : A -> B) (g : A -> C) (l : list A) :
  combine (map f l) (map g l) = map (fun x => (f x, g x)) l.
Proof. induction l as [|x l IH]; simpl; [reflexivity | now rewrite IH]. Qed.

Lemma take_seq_length {A : Type} (d : A) (n : nat) (col : list A) :
  List.length col = n -> take d (seq 0 n) col = col.
Proof. intros <-. apply take_seq. Qed.

(** the comparison of a single approach *)
Lemma calculate_returns_single (self self' : HedgeFund) a rows :
  calculate_returns self = Ok self' ->
  performance self = [(a, Rows rows)] ->
  comparison self' = single_comparison rows (sp500_change self).
Proof.
  intros H Hp. apply calculate_returns_inv in H.
  destruct H as (self1 & perf & merged & cmp & H1 & H2 & H3 & H4 & E).
  pose proof (merge_benchmark_ok _ _ _ H3) as (Hsorted & Hd & Hq & _ & _).
  rewrite Hp in H1. injection H1 as <-.
  rewrite Hp in H2. cbn [table_rows bind] in H2. injection H2 as <-.
  unfold merge_benchmark in H3.
  destruct (_ && _); [|discriminate]. injection H3 as <-.
  unfold add_outperformance in H4.
  cbn [single_frame has_label labels float_cols map fst snd existsb String.eqb
       Ascii.eqb Bool.eqb orb set_floats app dict_get dict_set] in H4.
  injection H4 as <-. rewrite E.
  unfold sort_by_sell_date, round_frame, map_floats, set_floats.
  cbn [single_frame float_cols sell_date_col quarter_col] in *.
  rewrite (argsort_sorted _ Hsorted). rewrite !length_map.
  unfold single_comparison. f_equal.
  - cbn [option_map]. f_equal. apply take_seq_length. apply length_map.
  - apply take_seq_length. apply length_map.
  - cbn [map fst snd]. rewrite (map_map pr_sell_date), combine_map, !map_map.
    repeat f_equal; apply take_seq_length; apply length_map.
Qed.


(* ================================================================== *)
(** ** The growth projection *)

Lemma factor_not_nan (r : num) : isna (factor r) = false.
Proof.
  unfold factor, fillna. destruct r as [q| | |]; cbn [isna div add]; try reflexivity;
    destruct (Qeq_bool 100 0); reflexivity.
Qed.

Lemma factor_fin (r : num) : not_inf r = true -> is_fin (factor r) = true.
Proof.
  unfold factor, fillna. destruct r as [q| | |]; try discriminate; reflexivity.
Qed.

Lemma cumprod_from_length (l : list num) : forall acc,
  List.length (cumprod_from acc l) = List.length l.
Proof.
  induction l as [|x l IH]; intros acc; [reflexivity|]. simpl.
  destruct (isna x); simpl; now rewrite IH.
Qed.

Lemma cumprod_from_nth (l : list num) : forall acc k,
  (forall x, In x l -> isna x = false) -> (k < List.length l)%nat ->
  nth k (cumprod_from acc l) NaN = fold_left mul (firstn (S k) l) acc.
Proof.
  induction l as [|x l IH]; intros acc k Hl Hk; [simpl in Hk; lia|].
  cbn [cumprod_from]. rewrite (Hl x (or_introl eq_refl)).
  destruct k as [|k]; [reflexivity|].
  cbn [nth firstn fold_left]. apply IH; [intros; apply Hl; now right | simpl in Hk; lia].
Qed.

Lemma growth_column_nth (principal : num) (col : list num) (k : nat) :
  (k < List.length col)%nat ->
  nth k (map round2
           (growth_column principal (map (fun x => fillna x (Fin 0)) col))) NaN
  = projected principal col k.
Proof.
  intros Hk. unfold growth_column, projected, cumprod.
  rewrite !map_map.
  change NaN with (round2 (mul NaN principal)) at 1.
  rewrite (map_nth (fun x => round2 (mul x principal))).
  change (fun x => add (div (fillna x (Fin 0)) (Fin 100)) (Fin 1)) with factor.
  rewrite cumprod_from_nth.
  - now rewrite firstn_map.
  - intros x Hx. apply in_map_iff in Hx. destruct Hx as [r [<- _]].
    apply factor_not_nan.
  - now rewrite length_map.
Qed.

Lemma fold_mul_fin (qs : list Q) (a : Q) :
  fold_left mul (map Fin qs) (Fin a) = Fin (fold_left Qmult qs a).
Proof.
  revert a. induction qs as [|q qs IH]; simpl; intros a; [reflexivity | apply IH].
Qed.

Lemma qprod_proper (qs : list Q) (a b : Q) :
  (a == b)%Q -> (fold_left Qmult qs a == fold_left Qmult qs b)%Q.
Proof.
  revert a b. induction qs as [|q qs IH]; simpl; intros a b H; [assumption|].
  apply IH. now rewrite H.
Qed.

Lemma qprod_scale (qs : list Q) (a p : Q) :
  (fold_left Qmult qs a * p == fold_left Qmult qs (a * p))%Q.
Proof.
  revert a. induction qs as [|q qs IH]; simpl; intros a; [reflexivity|].
  rewrite IH. apply qprod_proper. ring.
Qed.

Lemma rint_proper (a b : Q) : (a == b)%Q -> rint a = rint b.
Proof.
  intros H. unfold rint. rewrite (Qfloor_comp _ _ H).
  assert (E : (a - inject_Z (Qfloor b) ?= 1 # 2)%Q = (b - inject_Z (Qfloor b) ?= 1 # 2)%Q)
    by now rewrite H.
  now rewrite E.
Qed.

Lemma round2_proper (a b : Q) : (a == b)%Q -> round2 (Fin a) ≡ round2 (Fin b).
Proof.
  intros H. cbn [round2 Num.eq].
  rewrite (rint_proper (a * 100) (b * 100)) by now rewrite H. reflexivity.
Qed.

Lemma firstn_incl {A : Type} (k : nat) (l : list A) (x : A) :
  In x (firstn k l) -> In x l.
Proof.
  revert l. induction k as [|k IH]; intros [|y l]; simpl; try tauto.
  intros [->|H]; [now left | right; now apply IH].
Qed.

(** the product taken from the principal on *)
Lemma projected_from_principal (p : Q) (returns : list num) (k : nat) :
  (forall r, In r returns -> not_inf r = true) ->
  projected (Fin p) returns k
  ≡ round2 (fold_left mul (map factor (firstn (S k) returns)) (Fin p)).
Proof.
  intros H. unfold projected.
  destruct (all_fin factor (firstn (S k) returns)) as [qs E].
  { intros x Hx. apply factor_fin, H. eapply firstn_incl. eassumption. }
  rewrite E, !fold_mul_fin. cbn [mul]. apply round2_proper.
  rewrite qprod_scale. apply qprod_proper. ring.
Qed.

(** C5.  The table of the growth projection keeps the dates of the
    comparison; under each label other than [outperformance] (the
    approaches and the benchmark) the value after period [k] is the
    product of the factors 1 + r/100 of the returns up to [k], NaN
    counted as 0, times the principal, rounded to two decimals; for
    returns and a principal that are numbers this is the running
    product that starts from the principal.  With 10000 and the returns
    NaN, 5 the values are 10000 and 10500. *)
Theorem growth_projection (principal : num) (self : HedgeFund) :
  sell_date_col (plot_growth principal self) = sell_date_col (comparison self) /\
  Forall2
    (fun old new : string * list num =>
       fst new = fst old /\
       List.length (snd new) = List.length (snd old) /\
       (is_approach (fst old) = true ->
        forall k, (k < List.length (snd old))%nat ->
          nth k (snd new) NaN = projected principal (snd old) k) /\
       (is_approach (fst old) = false ->
        snd new = map (fun x => round2 (fillna x (Fin 0))) (snd old)))
    (float_cols (comparison self)) (float_cols (plot_growth principal self)) /\
  (is_approach "performance" = true /\ is_approach "VOO" = true /\
   is_approach "outperformance" = false) /\
  (forall p returns k,
     (forall r, In r returns -> not_inf r = true) ->
     projected (Fin p) returns k
     ≡ round2 (fold_left mul (map factor (firstn (S k) returns)) (Fin p))) /\
  Forall2 Num.eq
    (column "performance" (growth_frame (Fin 10000) nan_then_five))
    [Fin 10000; Fin 10500].
Proof.
  split; [reflexivity|]. split; [|split; [|split]].
  - unfold plot_growth, growth_frame, round_frame, map_floats. cbn [float_cols].
    rewrite !map_map. cbn [fst snd].
    induction (float_cols (comparison self)) as [|[c col] cols IH]; cbn [map];
      constructor; [|exact IH].
    cbn [fst snd]. split; [reflexivity|].
    destruct (is_approach c) eqn:Ea.
    + split; [|split; [|discriminate]].
      * unfold growth_column, cumprod.
        now rewrite !length_map, cumprod_from_length, !length_map.
      * intros _ k Hk. now apply growth_column_nth.
    + split; [now rewrite !length_map|]. split; [discriminate|].
      intros _. now rewrite map_map.
  - repeat split.
  - intros p returns k H. now apply projected_from_principal.
  - repeat constructor; vm_compute; reflexivity.
Qed.

(* ================================================================== *)
(** ** Failures *)

Lemma bind_raise {A B : Type} (m : result A) (k : A -> result B) (e : exn) :
  bind m k = Raise e -> m = Raise e \/ exists a, m = Ok a /\ k a = Raise e.
Proof.
  destruct m as [a|e']; simpl; intros H; [right; eauto | left; now injection H as ->].
Qed.

Lemma Forall2_In_l {A B : Type} (R : A -> B -> Prop) (l : list A) (l' : list B) (x : A) :
  Forall2 R l l' -> In x l -> exists y, In y l' /\ R x y.
Proof.
  induction 1 as [|a b l l' Hab HF IH]; intros Hx; [contradiction|].
  destruct Hx as [<-|Hx]; [exists b; split; [now left | assumption]|].
  destruct (IH Hx) as [y [Hy Hr]]. exists y. split; [now right | assumption].
Qed.

Lemma map_fst_combine {A B : Type} (l : list A) (l' : list B) :
  List.length l' = List.length l -> map fst (combine l l') = l.
Proof.
  revert l'. induction l as [|x l IH]; intros [|y l'] H; simpl in *;
    try discriminate; [reflexivity|]. f_equal. apply IH. lia.
Qed.

Lemma with_change_holdings (rows : list (holding * num)) :
  map (fun x => fst (fst x)) (with_change rows) = map fst rows.
Proof.
  unfold with_change. rewrite map_map. cbn [fst].
  rewrite <- (map_map fst fst), map_fst_combine; [reflexivity|].
  apply groupby_diff_length.
Qed.

Section LoaderFailures.
Variable float_of_string : string -> option num.
Variable n : Z.

Lemma astype_float_raises s e :
  astype_float float_of_string s = Raise e -> e = ValueError.
Proof.
  unfold astype_float. destruct (float_of_string _); [discriminate|].
  intros H. now injection H.
Qed.

Lemma astype_float_ok s :
  succeeds (astype_float float_of_string s) <->
  float_of_string (strip_commas s) <> None.
Proof.
  unfold astype_float, succeeds. destruct (float_of_string _) as [x|]; split.
  - discriminate.
  - intros _. now exists x.
  - intros [a H]. discriminate.
  - intros H. now contradiction H.
Qed.

Lemma parse_shares_succeeds h :
  succeeds (parse_shares float_of_string h) <->
  float_of_string (strip_commas (h_shares h)) <> None.
Proof.
  rewrite <- astype_float_ok. unfold parse_shares, succeeds.
  destruct (astype_float _ _) as [x|e]; simpl; split; intros [a H];
    try discriminate; eauto.
Qed.

Lemma parse_value_succeeds x :
  succeeds (parse_value float_of_string n x) <->
  float_of_string (strip_commas (h_value (fst (fst x)))) <> None.
Proof.
  rewrite <- astype_float_ok. destruct x as [[h s] c]. unfold parse_value, succeeds.
  cbn [fst]. destruct (astype_float _ _) as [v|e]; simpl; split; intros [a H];
    try discriminate; eauto.
Qed.

Lemma parse_shares_holdings l rows :
  Forall2 (fun x y => parse_shares float_of_string x = Ok y) l rows ->
  map fst rows = l.
Proof.
  induction 1 as [|a r l rs Hr HF IH]; simpl; [reflexivity|].
  unfold parse_shares in Hr. inv_bind Hr. injection Hr as <-. simpl.
  now rewrite IH.
Qed.

(** the loader raises nothing but [ValueError] *)
Lemma read_positions_raises files e :
  read_positions float_of_string n files = Raise e -> e = ValueError.
Proof.
  unfold read_positions. destruct files as [|f files]; [intros H; now injection H|].
  intros H. apply bind_raise in H. destruct H as [H|[rows [_ H]]];
    apply mapM_raise in H; destruct H as [x [_ H]].
  - unfold parse_shares in H. apply bind_raise in H.
    destruct H as [H|[a [_ H]]]; [now apply astype_float_raises in H | discriminate].
  - destruct x as [[h s] c]. unfold parse_value in H. apply bind_raise in H.
    destruct H as [H|[a [_ H]]]; [now apply astype_float_raises in H | discriminate].
Qed.

Lemma read_positions_parseable files tbl :
  read_positions float_of_string n files = Ok tbl ->
  forall h, In h (normalize files) -> parseable float_of_string h.
Proof.
  unfold read_positions. destruct files as [|f0 files0]; [discriminate|].
  set (files := f0 :: files0). intros H h Hh. inv_bind H. rename x into rows.
  apply mapM_Forall2 in Hx, H. split.
  - destruct (Forall2_In_l _ _ _ h Hx Hh) as [y [_ Hy]].
    apply parse_shares_succeeds. now exists y.
  - pose proof (parse_shares_holdings _ _ Hx) as Hrows.
    rewrite <- Hrows, <- with_change_holdings in Hh. apply in_map_iff in Hh.
    destruct Hh as [x [<- Hx']].
    destruct (Forall2_In_l _ _ _ x H Hx') as [y [_ Hy]].
    apply parse_value_succeeds. now exists y.
Qed.

Lemma read_positions_succeeds files :
  files <> [] ->
  (forall h, In h (normalize files) -> parseable float_of_string h) ->
  succeeds (read_positions float_of_string n files).
Proof.
  intros Hne Hp. unfold read_positions. destruct files as [|f0 files0]; [contradiction|].
  set (files := f0 :: files0) in *.
  destruct (mapM_total (parse_shares float_of_string) (normalize files)) as [rows Hrows].
  { intros h Hh. apply parse_shares_succeeds. now apply Hp. }
  rewrite Hrows. cbn [bind].
  apply mapM_total. intros x Hx. apply parse_value_succeeds.
  apply Hp. apply mapM_Forall2 in Hrows.
  pose proof (parse_shares_holdings _ _ Hrows) as E.
  rewrite <- E, <- with_change_holdings. now apply (in_map (fun x => fst (fst x))).
Qed.
End LoaderFailures.

Lemma query_window_one_date (tbl : list position) :
  (List.length (distinct_dates tbl) < 2)%nat -> query_window tbl = Raise IndexError.
Proof.
  unfold query_window. fold (distinct_dates tbl).
  destruct (distinct_dates tbl) as [|d0 [|d1 l]]; simpl; intros H;
    try reflexivity; lia.
Qed.

(** C8 (amended).  The loader raises [ValueError] (and never
    [DataIntegrityError]) when the directory has no snapshot, and when
    the shares or the value of a line that the normalization keeps
    cannot be read as a number once the separators are stripped;
    otherwise it returns its table, also from snapshots of one filing
    date only: it is the price aligner that then stops, with
    [IndexError]. *)
Theorem loader_failures
    (float_of_string : string -> option num) (n : Z) (files : list snapshot) :
  (files = [] \/
   (exists h, In h (normalize files) /\
      (float_of_string (strip_commas (h_shares h)) = None \/
       float_of_string (strip_commas (h_value h)) = None)) ->
   read_positions float_of_string n files = Raise ValueError) /\
  (files <> [] ->
   (forall h, In h (normalize files) -> parseable float_of_string h) ->
   succeeds (read_positions float_of_string n files)) /\
  read_positions float_of_string n files <> Raise DataIntegrityError /\
  (forall tbl,
     read_positions float_of_string n files = Ok tbl ->
     (List.length (distinct_dates tbl) < 2)%nat ->
     query_window tbl = Raise IndexError).
Proof.
  split; [|split; [|split]].
  - intros [->|[h [Hh Hbad]]]; [reflexivity|].
    destruct (read_positions float_of_string n files) as [tbl|e] eqn:E.
    + exfalso. destruct (read_positions_parseable _ _ _ _ E h Hh) as [H1 H2].
      destruct Hbad; contradiction.
    + now rewrite (read_positions_raises _ _ _ _ E).
  - apply read_positions_succeeds.
  - intros E. apply read_positions_raises in E. discriminate.
  - intros tbl _. apply query_window_one_date.
Qed.

(** *** the exceptions of a run *)

Lemma query_window_raises tbl e : query_window tbl = Raise e -> builtin e.
Proof.
  unfold query_window, builtin. destruct (nth_error _ 1); [|intros H; injection H as <-; tauto].
  destruct (list_max _); [discriminate|]. intros H; injection H as <-; tauto.
Qed.

Lemma get_positions_raises w self e : get_positions w self = Raise e -> builtin e.
Proof.
  unfold get_positions. intros H. apply bind_raise in H.
  destruct H as [H|[a [_ H]]]; [|discriminate].
  apply read_positions_raises in H. subst e. now left.
Qed.

Lemma get_prices_raises w self e : get_prices w self = Raise e -> builtin e.
Proof.
  unfold get_prices. intros H. apply bind_raise in H.
  destruct H as [H|[[a b] [_ H]]]; [now apply query_window_raises in H | discriminate].
Qed.

Lemma create_portfolio_raises a self e : create_portfolio a self = Raise e -> builtin e.
Proof.
  unfold create_portfolio, merge_weight. destruct (_ && _); [discriminate|].
  simpl. intros H. injection H as <-. now left.
Qed.

Lemma table_rows_raises t e : table_rows t = Raise e -> e = ValueError.
Proof. destruct t; simpl; [discriminate | intros H; now injection H]. Qed.

Lemma calculate_returns_raises self e : calculate_returns self = Raise e -> builtin e.
Proof.
  unfold calculate_returns. intros H.
  apply bind_raise in H. destruct H as [H|[self1 [_ H]]].
  { destruct (performance self); [now apply create_portfolio_raises in H | discriminate]. }
  apply bind_raise in H. destruct H as [H|[perf [_ H]]].
  { destruct (performance self1) as [|[a1 t1] [|[a2 t2] tl]].
    - injection H as <-. right. now left.
    - apply bind_raise in H. destruct H as [H|[r [_ H]]]; [|discriminate].
      apply table_rows_raises in H. subst e. now left.
    - apply bind_raise in H. destruct H as [H|[named [_ H]]].
      + apply mapM_raise in H. destruct H as [x [_ H]].
        apply bind_raise in H. destruct H as [H|[r [_ H]]]; [|discriminate].
        apply table_rows_raises in H. subst e. now left.
      + unfold concat_frame in H. destruct (existsb _ _); [|discriminate].
        injection H as <-. now left. }
  apply bind_raise in H. destruct H as [H|[merged [_ H]]].
  { unfold merge_benchmark in H. destruct (_ && _); [discriminate|].
    injection H as <-. now left. }
  apply bind_raise in H. destruct H as [H|[cmp [_ H]]]; [|discriminate].
  unfold add_outperformance in H.
  destruct (dict_get "performance" _); [|discriminate].
  destruct (dict_get "VOO" _); [discriminate|].
  injection H as <-. right. now right.
Qed.

(** a run raises what pandas and numpy raise, nothing else *)
Lemma evaluate_raises w self e : evaluate w self = Raise e -> builtin e.
Proof.
  unfold evaluate. intros H.
  apply bind_raise in H. destruct H as [H|[s1 [_ H]]];
    [now apply get_positions_raises in H|].
  apply bind_raise in H. destruct H as [H|[s2 [_ H]]];
    [now apply get_prices_raises in H|].
  apply bind_raise in H. destruct H as [H|[s3 [_ H]]];
    [now apply calculate_returns_raises in H | discriminate].
Qed.

(** *** a ticker without prices *)

Lemma melt_tickers idx cols o :
  In o (melt idx cols) -> In (o_ticker o) (map fst cols).
Proof.
  unfold melt. intros H. apply in_flat_map in H. destruct H as [c [Hc H]].
  apply in_map_iff in H. destruct H as [dv [<- _]]. simpl. now apply in_map.
Qed.

Lemma get_prices_inv w self self2 :
  get_prices w self = Ok self2 ->
  exists start stop,
    query_window (positions self) = Ok (start, stop) /\
    price self2 = adj_close w (buy_tickers (positions self)) start stop /\
    price_change self2 =
      sort_values sell_date_ticker_leb
        (melt (pf_index (price self2))
           (map (fun c => (fst c, pct_change100 (n_weeks self) (snd c)))
                (pf_columns (price self2)))) /\
    sp500_change self2 =
      (let s := adj_close_of w "VOO" start stop in
       combine (map fst s) (pct_change100 (n_weeks self) (map snd s))) /\
    positions self2 = positions self /\ performance self2 = performance self.
Proof.
  unfold get_prices. intros H. inv_bind H. destruct x as [start stop].
  injection H as <-. exists start, stop. cbn. tauto.
Qed.

Lemma price_change_tickers w self self2 o :
  get_prices w self = Ok self2 ->
  In o (price_change self2) -> In (o_ticker o) (map fst (pf_columns (price self2))).
Proof.
  intros H Ho. apply get_prices_inv in H.
  destruct H as (start & stop & _ & _ & E & _). rewrite E in Ho.
  apply (proj1 (sort_values_In sell_date_ticker_leb _ _)) in Ho.
  apply melt_tickers in Ho. now rewrite map_map in Ho.
Qed.

Lemma ffill_from_nan (col : list num) :
  (forall x, In x col -> x = NaN) ->
  forall y, In y (ffill_from NaN col) -> y = NaN.
Proof.
  induction col as [|x col IH]; simpl; intros H y Hy; [contradiction|].
  rewrite (H x (or_introl eq_refl)) in Hy. simpl in Hy.
  destruct Hy as [<-|Hy]; [reflexivity|]. apply IH; auto.
Qed.

(** a column without a price has no return *)
Lemma pct_change100_nan (n : Z) (col : list num) :
  (forall x, In x col -> x = NaN) ->
  forall y, In y (pct_change100 n col) -> y = NaN.
Proof.
  intros H y Hy. unfold pct_change100 in Hy. apply in_map_iff in Hy.
  destruct Hy as [[a b] [<- Hab]]. apply in_combine_l in Hab.
  now rewrite (ffill_from_nan col H a Hab).
Qed.

Lemma melt_cells idx cols o :
  In o (melt idx cols) ->
  exists col, In (o_ticker o, col) cols /\ In (o_price_change o) col.
Proof.
  unfold melt. intros H. apply in_flat_map in H. destruct H as [[t col] [Hc H]].
  apply in_map_iff in H. destruct H as [[d v] [<- Hdv]]. simpl.
  exists col. split; [assumption|]. now apply in_combine_r in Hdv.
Qed.

Lemma price_change_nan w self self2 t o :
  get_prices w self = Ok self2 ->
  (forall c x, In c (pf_columns (price self2)) -> fst c = t -> In x (snd c) -> x = NaN) ->
  In o (price_change self2) -> o_ticker o = t -> o_price_change o = NaN.
Proof.
  intros H Hcol Ho Ht. apply get_prices_inv in H.
  destruct H as (start & stop & _ & _ & E & _). rewrite E in Ho.
  apply (proj1 (sort_values_In sell_date_ticker_leb _ _)) in Ho.
  apply melt_cells in Ho. destruct Ho as [col [Hin Hx]].
  apply in_map_iff in Hin. destruct Hin as [[t' col'] [Ec Hc]].
  simpl in Ec. injection Ec as Et <-. subst t'.
  eapply pct_change100_nan; [|exact Hx].
  intros x Hx'. apply (Hcol (o_ticker o, col') x Hc Ht Hx').
Qed.

Lemma no_observation_no_return a self self' t rows r :
  create_portfolio a self = Ok self' ->
  (forall o, In o (price_change self) -> o_ticker o = t -> o_price_change o = NaN) ->
  dict_get a (portfolios self') = Some rows ->
  In r rows -> ticker (p_pos r) = t ->
  p_price_change r = NaN /\ p_performance r = NaN.
Proof.
  intros H Hnone Hrows Hr Ht. apply create_portfolio_rows in H.
  destruct H as (rows' & Hm & Hp & _). rewrite Hp in Hrows. injection Hrows as ->.
  destruct (merge_weight_rows _ _ _ Hm) as [Hs E]. rewrite E in Hr.
  apply in_map_iff in Hr. destruct Hr as [p [<- Hp']]. cbn in *.
  assert (En : nearest_return (price_change self) p = NaN).
  { destruct (nearest_return_spec (price_change self) p Hs) as [[o [Ho Eo]]|[_ En]];
      [|assumption].
    destruct Ho as (Hin & Hto & _). rewrite Eo. apply Hnone; [assumption|congruence]. }
  rewrite En. split; reflexivity.
Qed.

(** *** a run that goes through *)

Lemma combine_sorted {B : Type} (l : list Z) (l' : list B) :
  StronglySorted Z.le l ->
  StronglySorted (fun a b : Z * B => fst a <= fst b) (combine l l').
Proof.
  intros Hs. revert l'. induction Hs as [|x l Hs IH Hx]; intros [|y l'];
    simpl; try constructor; [apply IH|].
  rewrite Forall_forall in *. intros [a b] Hin. apply in_combine_l in Hin.
  simpl. now apply Hx.
Qed.

Lemma period_returns_rows (rows : list holding_return) :
  rows <> [] ->
  exists r0 rest,
    period_returns rows = Rows (r0 :: rest) /\
    StronglySorted Z.le (map pr_sell_date (r0 :: rest)).
Proof.
  intros Hne. unfold period_returns.
  assert (Hsorted : StronglySorted (fun x y => pr_sell_date x <= pr_sell_date y)
                      (sort_values pr_sell_date_leb (groupby_sum rows)))
    by (apply sort_values_by_key; unfold pr_sell_date_leb; intros; lia).
  pose proof (set_loc0_nan_spec (sort_values pr_sell_date_leb (groupby_sum rows))) as Hs.
  destruct (set_loc0_nan _) as [[|r0 rest]|]; [contradiction | |].
  - exists r0, rest. split; [reflexivity|]. destruct Hs as (r & E & _ & Hd & _).
    rewrite E in Hsorted. apply (StronglySorted_map Z.le pr_sell_date) in Hsorted.
    cbn [map] in *. now rewrite Hd.
  - exfalso. destruct rows as [|r rows']; [now apply Hne|].
    assert (Hin : In (period_key r) (map period_key (r :: rows'))) by now left.
    apply (unique_In period_key_eqb period_key_eqb_spec) in Hin.
    rewrite <- groupby_sum_keys in Hin. apply in_map_iff in Hin.
    destruct Hin as [pr [_ Hpr]].
    apply (sort_values_In pr_sell_date_leb) in Hpr. rewrite Hs in Hpr.
    contradiction.
Qed.

Lemma calculate_returns_default (self s3 : HedgeFund) :
  performance self = [] ->
  create_portfolio "simple" self = Ok s3 ->
  performance s3 <> [] ->
  calculate_returns self = calculate_returns s3.
Proof.
  intros Hp Hc Hne. unfold calculate_returns. rewrite Hp, Hc.
  assert (E : match performance s3 with
              | [] => create_portfolio "simple" s3
              | _ => Ok s3
              end = Ok s3)
    by (destruct (performance s3); [contradiction | reflexivity]).
  rewrite E. reflexivity.
Qed.

Lemma calculate_returns_single_ok (self : HedgeFund) a rows :
  performance self = [(a, Rows rows)] ->
  StronglySorted Z.le (map pr_sell_date rows) ->
  StronglySorted (fun x y : Z * num => fst x <= fst y) (sp500_change self) ->
  exists self',
    calculate_returns self = Ok self' /\
    performance self' = performance self /\ sp500_change self' = sp500_change self.
Proof.
  intros Hp Hs Hb. unfold calculate_returns. rewrite Hp. cbn [bind].
  rewrite Hp. cbn [bind table_rows].
  unfold merge_benchmark. cbn [single_frame sell_date_col].
  rewrite (sorted_is_sorted (fun d : Z => d)) by exact Hs.
  rewrite (sorted_is_sorted fst) by assumption. cbn [andb bind].
  unfold add_outperformance.
  cbn [single_frame has_label labels float_cols map fst snd existsb String.eqb
       Ascii.eqb Bool.eqb orb set_floats app dict_get dict_set bind].
  eexists. split; [reflexivity|]. cbn [performance sp500_change].
  split; [try rewrite Hp; reflexivity | reflexivity].
Qed.

Lemma loader_sell_dates_sorted fos n files tbl :
  read_positions fos n files = Ok tbl ->
  StronglySorted (fun a b => sell_date a <= sell_date b) tbl.
Proof.
  intros H. apply read_positions_rows in H. destruct H as (Hs & Hf & _).
  assert (G : forall l, (forall p, In p l -> In p tbl) ->
                StronglySorted (fun a b => date a <= date b) l ->
                StronglySorted (fun a b => sell_date a <= sell_date b) l).
  { induction l as [|x l IH]; intros Hin Hl; [constructor|].
    inversion Hl; subst. constructor; [apply IH; auto; intros; apply Hin; now right|].
    rewrite Forall_forall in *. intros y Hy. specialize (H2 y Hy).
    destruct (Hf x (Hin x (or_introl eq_refl))) as [-> _].
    destruct (Hf y (Hin y (or_intror Hy))) as [-> _]. lia. }
  apply G; auto.
Qed.

(** after the loader, with two filing dates and a benchmark series in
    date order, the run ends with the comparison of the one approach *)
Lemma run_continues w n s1 p q :
  get_positions w (init n) = Ok s1 ->
  In p (positions s1) -> In q (positions s1) -> date p <> date q ->
  (forall a b, is_sorted fst (adj_close_of w "VOO" a b) = true) ->
  exists cmp s rows,
    evaluate w (init n) = Ok (cmp, s) /\
    performance s = [("simple"%string, Rows rows)] /\
    cmp = single_comparison rows (sp500_change s) /\
    exists start stop,
      sp500_change s =
        (let b := adj_close_of w "VOO" start stop in
         combine (map fst b) (pct_change100 n (map snd b))).
Proof.
  intros H1 Hp Hq Hne Hbench. unfold evaluate. rewrite H1. cbn [bind].
  pose proof H1 as Hload. unfold get_positions in Hload. inv_bind Hload.
  injection Hload as Es1. rename x into tbl.
  assert (Et : positions s1 = tbl) by now rewrite <- Es1.
  assert (Ep1 : performance s1 = []) by now rewrite <- Es1.
  assert (En1 : n_weeks s1 = n) by now rewrite <- Es1.
  rewrite Et in *. cbn [init n_weeks] in Hx.
  (* the price aligner *)
  destruct (two_dates tbl p q Hp Hq Hne) as [start Hstart].
  assert (Hmax : exists stop, list_max (map sell_date tbl) = Some stop).
  { destruct tbl; [contradiction | simpl; now eexists]. }
  destruct Hmax as [stop Hstop].
  destruct (get_prices w s1) as [s2|e] eqn:H2.
  2:{ exfalso. unfold get_prices, query_window in H2. rewrite Et in H2.
      fold (distinct_dates tbl) in H2. rewrite Hstart, Hstop in H2. discriminate. }
  cbn [bind]. pose proof (get_prices_inv _ _ _ H2) as (st & sp & Hw & _ & Epc & Esp & Epos & Eperf).
  rewrite Et in Epos. rewrite Ep1 in Eperf. rewrite En1 in Esp, Epc.
  (* the composer *)
  assert (Hrows : exists rows, merge_weight (positions s2) (price_change s2) = Ok rows
                               /\ rows <> []).
  { unfold merge_weight. rewrite Epos.
    rewrite (sorted_is_sorted sell_date) by (eapply loader_sell_dates_sorted; eassumption).
    rewrite (sorted_is_sorted o_sell_date).
    2:{ rewrite Epc. apply sort_values_by_key; unfold sell_date_ticker_leb; intros; lia. }
    cbn [andb]. eexists. split; [reflexivity|].
    destruct tbl; [contradiction | discriminate]. }
  destruct Hrows as (rows & Hm & Hrne).
  destruct (period_returns_rows rows Hrne) as (r0 & rest & Epr & Hsorted).
  assert (Hc : exists s3, create_portfolio "simple" s2 = Ok s3 /\
             performance s3 = [("simple"%string, Rows (r0 :: rest))] /\
             sp500_change s3 = sp500_change s2).
  { unfold create_portfolio. rewrite Hm. cbn [bind]. eexists.
    split; [reflexivity|]. cbn [performance sp500_change].
    rewrite Eperf, Epr. split; reflexivity. }
  destruct Hc as (s3 & Hc & Ep3 & Esp3).
  rewrite (calculate_returns_default s2 s3 Eperf Hc) by (rewrite Ep3; discriminate).
  (* the comparator *)
  assert (Hb : StronglySorted (fun x y : Z * num => fst x <= fst y) (sp500_change s3)).
  { rewrite Esp3, Esp. cbv zeta. apply combine_sorted.
    apply (StronglySorted_map Z.le fst). apply is_sorted_sorted. apply Hbench. }
  destruct (calculate_returns_single_ok s3 _ _ Ep3 Hsorted Hb) as (s4 & H4 & Ep4 & Esp4).
  rewrite H4. cbn [bind]. exists (comparison s4), s4, (r0 :: rest).
  split; [reflexivity|]. split; [now rewrite Ep4|]. split.
  - rewrite Esp4. eapply calculate_returns_single; eassumption.
  - exists st, sp. now rewrite Esp4, Esp3.
Qed.

Lemma benchmark_at_empty d : benchmark_at [] d = NaN.
Proof. reflexivity. Qed.

(** C9 (amended).  A ticker for which the price source has no column
    has no observation, and one whose columns hold no price has
    observations of NaN only; the rows of such a ticker get NaN for
    return and contribution, and the run goes on.  A run raises
    only what pandas and numpy raise, never [DataUnavailableError]: with
    the table loaded, two filing dates and a benchmark series in date
    order, it ends with the comparison of the approach, and when the
    benchmark series is empty the benchmark return and the
    outperformance of every row are NaN. *)
Theorem price_source_failures (w : World) :
  (forall self self2 o,
     get_prices w self = Ok self2 ->
     In o (price_change self2) ->
     In (o_ticker o) (map fst (pf_columns (price self2))) /\
     ((forall c x, In c (pf_columns (price self2)) -> fst c = o_ticker o ->
                   In x (snd c) -> x = NaN) ->
      o_price_change o = NaN)) /\
  (forall a self self' t rows r,
     create_portfolio a self = Ok self' ->
     (forall o, In o (price_change self) -> o_ticker o = t ->
                o_price_change o = NaN) ->
     dict_get a (portfolios self') = Some rows ->
     In r rows -> ticker (p_pos r) = t ->
     p_price_change r = NaN /\ p_performance r = NaN) /\
  (forall self e, evaluate w self = Raise e ->
     builtin e /\ e <> DataUnavailableError) /\
  (forall n s1 p q,
     get_positions w (init n) = Ok s1 ->
     In p (positions s1) -> In q (positions s1) -> date p <> date q ->
     (forall a b, is_sorted fst (adj_close_of w "VOO" a b) = true) ->
     exists cmp s rows,
       evaluate w (init n) = Ok (cmp, s) /\
       performance s = [("simple"%string, Rows rows)] /\
       cmp = single_comparison rows (sp500_change s) /\
       ((forall a b, adj_close_of w "VOO" a b = []) ->
        forall c col x,
          In (c, col) (float_cols cmp) ->
          c = "VOO"%string \/ c = "outperformance"%string ->
          In x col -> x = NaN)).
Proof.
  split; [|split; [|split]].
  - intros self self2 o H Ho. split.
    + eapply price_change_tickers; eassumption.
    + intros Hcol. eapply price_change_nan; try eassumption. reflexivity.
  - intros a self self' t rows r. apply no_observation_no_return.
  - intros self e H. apply evaluate_raises in H. split; [assumption|].
    destruct H as [->|[->| ->]]; discriminate.
  - intros n s1 p q H1 Hp Hq Hne Hb.
    destruct (run_continues w n s1 p q H1 Hp Hq Hne Hb)
      as (cmp & s & rows & He & Hperf & Ecmp & start & stop & Esp).
    exists cmp, s, rows. repeat (split; [assumption|]).
    intros Hempty c col x Hc Hlab Hx. rewrite Esp, Hempty in Ecmp. cbn in Ecmp.
    subst cmp. cbn [single_comparison float_cols] in Hc.
    destruct Hc as [Hc|[Hc|[Hc|[]]]]; injection Hc as <- <-;
      destruct Hlab as [Hl|Hl]; try discriminate;
      apply in_map_iff in Hx; destruct Hx as [r [<- _]];
      [reflexivity | destruct (pr_performance r); reflexivity].
Qed.

(* ================================================================== *)
(** ** The properties on the example data *)

Ltac in_cases H :=
  simpl in H;
  repeat match type of H with
         | _ \/ _ => destruct H as [H|H]
         | False => contradiction
         end.

Ltac nodup :=
  repeat (constructor;
          [ let H := fresh in intros H; in_cases H; discriminate H | ]);
  constructor.

Lemma three_table_read :
  read_positions float_of_digits 13 three_filings = Ok three_table.
Proof. vm_compute. reflexivity. Qed.

Lemma bbb_jan_precedes_bbb_jul : preceding three_table bbb_jan bbb_jul.
Proof.
  split; [simpl; tauto|]. split; [reflexivity|]. split; [simpl; lia|].
  intros q Hq Ht Hd. in_cases Hq; subst q; simpl in *; try lia; discriminate.
Qed.



Lemma price_request_witness :
  exists start stop self2,
    get_prices (market two_filings) loaded_two = Ok self2 /\
    second_earliest (positions loaded_two) start /\
    latest_evaluation (positions loaded_two) stop.
Proof.
  destruct (price_request (market two_filings) (init 1) loaded_two
              (nth 0 (positions loaded_two) aaa_jan)
              (nth 1 (positions loaded_two) aaa_jan))
    as (start & stop & self2 & H & _ & _ & _ & _ & _ & H1 & H2).
  - vm_compute. reflexivity.
  - vm_compute. tauto.
  - vm_compute. tauto.
  - vm_compute. discriminate.
  - exists start, stop, self2. tauto.
Defined.

Lemma period_weights_witness :
  exists rows,
    dict_get "simple" (portfolios composed_two) = Some rows /\
    Num.sum (map p_weight (filter (in_quarter "q2_2023") rows)) ≡ Fin 1.
Proof.
  destruct (period_weights "simple" priced_two composed_two "q2_2023")
    as (rows & Hd & Hpos & _ & Hsum & _).
  - vm_compute. reflexivity.
  - exists rows. split; [assumption|]. apply Hsum.
    + assert (F : Forall (fun p => is_fin (value p) = true) (positions priced_two))
        by (vm_compute; repeat constructor).
      rewrite Forall_forall in F.
      intros r Hr. apply filter_In in Hr. destruct Hr as [Hr _].
      apply F. rewrite <- Hpos. now apply in_map.
    + vm_compute. discriminate.
Defined.




Lemma growth_projection_witness :
  sell_date_col (plot_growth (Fin 10000) compared_two)
  = sell_date_col (comparison compared_two) /\
  projected (Fin 10000) [NaN; Fin 5] 1
  ≡ round2 (fold_left mul (map factor (firstn 2 [NaN; Fin 5])) (Fin 10000)).
Proof.
  destruct (growth_projection (Fin 10000) compared_two) as (H1 & _ & _ & H4 & _).
  split; [exact H1|]. apply H4.
  intros r Hr. in_cases Hr; subst r; reflexivity.
Defined.

Lemma loader_failures_witness :
  read_positions float_of_digits 13 [] = Raise ValueError /\
  query_window one_table = Raise IndexError.
Proof.
  split.
  - apply (proj1 (loader_failures float_of_digits 13 [])). now left.
  - apply (proj2 (proj2 (proj2 (loader_failures float_of_digits 13 one_filing)))).
    + vm_compute. reflexivity.
    + vm_compute. lia.
Defined.

Lemma price_source_failures_witness :
  exists cmp s rows,
    evaluate (market_without_benchmark two_filings) (init 1) = Ok (cmp, s) /\
    performance s = [("simple"%string, Rows rows)] /\
    cmp = single_comparison rows (sp500_change s).
Proof.
  destruct (proj2 (proj2 (proj2
              (price_source_failures (market_without_benchmark two_filings))))
              1 loaded_two
              (nth 0 (positions loaded_two) aaa_jan)
              (nth 1 (positions loaded_two) aaa_jan))
    as (cmp & s & rows & H1 & H2 & H3 & _).
  - vm_compute. reflexivity.
  - vm_compute. tauto.
  - vm_compute. tauto.
  - vm_compute. discriminate.
  - intros a b. reflexivity.
  - exists cmp, s, rows. tauto.
Defined.

(** *** where the claims as written fail *)



(** C8 as written: one filing date, and the loader returns its table;
    no snapshot, and the exception is [ValueError]. *)
Lemma loader_accepts_one_date :
  read_positions float_of_digits 13 one_filing = Ok one_table /\
  List.length (distinct_dates one_table) = 1%nat /\
  read_positions float_of_digits 13 [] = Raise ValueError.
Proof. vm_compute. repeat split. Qed.

(** C9 as written: no prices for the benchmark, and the run ends with
    a comparison whose benchmark column is NaN. *)
Lemma run_without_benchmark :
  match evaluate (market_without_benchmark two_filings) (init 1) with
  | Ok (cmp, _) => dict_get "VOO" (float_cols cmp) = Some [NaN; NaN]
  | Raise _ => False
  end.
Proof. vm_compute. reflexivity. Qed.

(* ================================================================== *)
(** * More of the program *)

(** ** The loader *)

(** X1.  Outside the earliest filing date every share-change is a
    number, whatever lines share a ticker: with share counts that are
    numbers, the change of a row is missing exactly when the row is of
    the earliest filing date of the table. *)
Theorem change_missing_iff_seed
    (float_of_string : string -> option num) (n : Z)
    (files : list snapshot) (tbl : list position) (r : position) :
  read_positions float_of_string n files = Ok tbl ->
  Forall (fun p => is_fin (shares p) = true) tbl ->
  In r tbl ->
  (isna (change r) = true <-> earliest tbl (date r)) /\
  (~ earliest tbl (date r) -> is_fin (change r) = true).
Proof.
  intros H Hf Hr. apply read_positions_rows in H. destruct H as (_ & _ & Hc).
  rewrite Forall_forall in Hf.
  pose proof Hr as Hs. apply in_split in Hs. destruct Hs as (pre & post & E).
  rewrite (Hc pre r post E), <- (at_earliest_iff tbl r Hr).
  destruct (at_earliest _ _); [split; [tauto | intros H; now contradiction H]|].
  assert (Fr : is_fin (shares r) = true) by now apply Hf.
  assert (G : is_fin (fillna
                 match find (fun p => String.eqb (ticker p) (ticker r)) (rev pre) with
                 | Some p => sub (shares r) (shares p)
                 | None => NaN
                 end (shares r)) = true).
  { destruct (find _ (rev pre)) as [p|] eqn:F; [|exact Fr].
    apply find_some in F. destruct F as [Hp _]. apply in_rev in Hp.
    assert (Fp : is_fin (shares p) = true)
      by (apply Hf; rewrite E; apply in_or_app; now left).
    destruct (shares r), (shares p); try discriminate. reflexivity. }
  split; [|intros _; exact G].
  destruct (fillna _ _); try discriminate. split; discriminate.
Qed.

Lemma change_missing_iff_seed_witness :
  is_fin (change bbb_jul) = true /\ isna (change aaa_jan) = true.
Proof.
  split.
  - apply (change_missing_iff_seed float_of_digits 13 three_filings three_table bbb_jul).
    + vm_compute. reflexivity.
    + repeat constructor.
    + simpl. tauto.
    + intros H. specialize (H aaa_jan). simpl in H. assert (19539 <= 19358) by tauto. lia.
  - apply (change_missing_iff_seed float_of_digits 13 three_filings three_table aaa_jan).
    + vm_compute. reflexivity.
    + repeat constructor.
    + simpl. tauto.
    + intros p Hp. in_cases Hp; subst p; simpl; lia.
Defined.

(** ** The price aligner *)

Lemma distinct_dates_nonempty (tbl : list position) d :
  nth_error (distinct_dates tbl) 1 = Some d -> tbl <> [].
Proof. intros H E. subst tbl. discriminate. Qed.



(** ** The composer *)

(** X3.  After [get_positions] and [get_prices] the composer never
    fails: both tables come out sorted by evaluation date, as the merge
    asks. *)
Theorem composer_after_aligner (w : World) (s0 s1 s2 : HedgeFund) (a : string) :
  get_positions w s0 = Ok s1 ->
  get_prices w s1 = Ok s2 ->
  succeeds (create_portfolio a s2).
Proof.
  intros H1 H2. unfold get_positions in H1. inv_bind H1. injection H1 as Es1.
  assert (Et : positions s1 = x) by now rewrite <- Es1.
  apply get_prices_inv in H2. destruct H2 as (st & sp & _ & _ & Epc & _ & Epos & _).
  unfold create_portfolio, merge_weight. rewrite Epos, Et.
  rewrite (sorted_is_sorted sell_date) by (eapply loader_sell_dates_sorted; eassumption).
  rewrite (sorted_is_sorted o_sell_date).
  2:{ rewrite Epc. apply sort_values_by_key; unfold sell_date_ticker_leb; intros; lia. }
  cbn [andb bind]. now eexists.
Qed.

Lemma composer_after_aligner_witness :
  succeeds (create_portfolio "momentum" priced_two).
Proof.
  apply (composer_after_aligner (market two_filings) (init 1) loaded_two priced_two).
  - vm_compute. reflexivity.
  - vm_compute. reflexivity.
Defined.

Lemma dict_get_set_other {V : Type} (k k' : string) (v : V) (d : list (string * V)) :
  k' <> k -> dict_get k' (dict_set k v d) = dict_get k' d.
Proof.
  intros Hne. induction d as [|[k0 v0] d IH]; simpl.
  - destruct (String.eqb k k') eqn:E; [apply String.eqb_eq in E; congruence | reflexivity].
  - destruct (String.eqb k0 k) eqn:E; simpl.
    + apply String.eqb_eq in E. subst k0.
      destruct (String.eqb k k') eqn:E'; [apply String.eqb_eq in E'; congruence|].
      reflexivity.
    + now rewrite IH.
Qed.

(** X4.  The approach is a name and nothing more: a portfolio composed
    under a second name from the same tables is the portfolio of the
    first, with the same returns; composing under one name leaves the
    entries of the other names, the positions and the prices as they
    were. *)
Theorem approach_is_a_name (a b : string) (self s1 s2 : HedgeFund) :
  create_portfolio a self = Ok s1 ->
  create_portfolio b s1 = Ok s2 ->
  dict_get b (portfolios s2) = dict_get a (portfolios s1) /\
  dict_get b (performance s2) = dict_get a (performance s1) /\
  (forall c, c <> b ->
     dict_get c (portfolios s2) = dict_get c (portfolios s1) /\
     dict_get c (performance s2) = dict_get c (performance s1)) /\
  positions s2 = positions self /\ price_change s2 = price_change self /\
  comparison s2 = comparison self.
Proof.
  intros H1 H2. unfold create_portfolio in *. inv_bind H1. inv_bind H2.
  injection H1 as <-. injection H2 as <-. cbn in *.
  rewrite Hx in Hx0. injection Hx0 as <-.
  rewrite !dict_get_set. repeat split; try reflexivity;
    now apply dict_get_set_other.
Qed.

Lemma approach_is_a_name_witness :
  dict_get "performance" (performance (state_of (composed_twice (market two_filings) 1)))
  = dict_get "simple" (performance composed_two).
Proof.
  apply (approach_is_a_name "simple" "performance" priced_two composed_two
           (state_of (composed_twice (market two_filings) 1))).
  - vm_compute. reflexivity.
  - vm_compute. reflexivity.
Defined.

(** ** The comparator *)

(** X5.  [calculate_returns] composes the portfolio [simple] when there
    is none and otherwise composes nothing: it leaves the portfolios
    and their returns as [create_portfolio] made them, and never
    touches the positions, the prices or the benchmark. *)
Theorem calculate_returns_keeps_portfolios (self self' : HedgeFund) :
  calculate_returns self = Ok self' ->
  positions self' = positions self /\ price_change self' = price_change self /\
  sp500_change self' = sp500_change self /\
  (performance self <> [] ->
   performance self' = performance self /\ portfolios self' = portfolios self) /\
  (performance self = [] ->
   exists s1,
     create_portfolio "simple" self = Ok s1 /\
     performance self' = performance s1 /\ portfolios self' = portfolios s1 /\
     exists t, performance s1 = [("simple"%string, t)]).
Proof.
  unfold calculate_returns. intros H. inv_bind H. rename x into s1.
  inv_bind H. inv_bind H. inv_bind H. injection H as <-. cbn.
  destruct (performance self) as [|e l] eqn:Ep.
  - pose proof Hx as Hc. unfold create_portfolio in Hc.
    apply bind_ok in Hc. destruct Hc as [pf [Hpf Hc]].
    injection Hc as Es1.
    assert (E1 : positions s1 = positions self) by now rewrite <- Es1.
    assert (E2 : price_change s1 = price_change self) by now rewrite <- Es1.
    assert (E3 : sp500_change s1 = sp500_change self) by now rewrite <- Es1.
    assert (E4 : performance s1 = [("simple"%string, period_returns pf)])
      by (rewrite <- Es1; cbn; now rewrite Ep).
    refine (conj E1 (conj E2 (conj E3 (conj _ _)))).
    + intros Hne. now contradiction Hne.
    + intros _. exists s1. split; [exact Hx|]. split; [reflexivity|].
      split; [reflexivity|]. eexists. exact E4.
  - injection Hx as <-. rewrite Ep.
    split; [reflexivity|]. split; [reflexivity|]. split; [reflexivity|].
    split; [intros _; split; reflexivity | intros; discriminate].
Qed.

Lemma calculate_returns_keeps_portfolios_witness :
  performance compared_two = performance composed_two /\
  exists s1, create_portfolio "simple" priced_two = Ok s1 /\
             performance (state_of (calculate_returns priced_two)) = performance s1.
Proof.
  split.
  - apply (calculate_returns_keeps_portfolios composed_two compared_two).
    + vm_compute. reflexivity.
    + vm_compute. discriminate.
  - destruct (calculate_returns_keeps_portfolios priced_two
                (state_of (calculate_returns priced_two)))
      as (_ & _ & _ & _ & H).
    + vm_compute. reflexivity.
    + destruct H as (s1 & H1 & H2 & _); [reflexivity|]. exists s1. tauto.
Defined.

(** ** The lines of the snapshots and the rows of the table *)

Lemma string_leb_trans (a b c : string) :
  String.leb a b = true -> String.leb b c = true -> String.leb a c = true.
Proof.
  unfold String.leb. intros Hab Hbc.
  destruct (String.compare a b) eqn:Eab; try discriminate;
    destruct (String.compare b c) eqn:Ebc; try discriminate.
  - apply String_as_OT.cmp_eq in Eab. subst b. now rewrite Ebc.
  - apply String_as_OT.cmp_eq in Eab. subst b. now rewrite Ebc.
  - apply String_as_OT.cmp_eq in Ebc. subst c. now rewrite Eab.
  - apply String_as_OT.cmp_lt in Eab, Ebc.
    pose proof (String_as_OT.lt_trans _ _ _ Eab Ebc) as H.
    apply String_as_OT.cmp_lt in H. unfold String_as_OT.cmp in H. now rewrite H.
Qed.

Lemma date_ticker_leb_trans (x y z : holding) :
  date_ticker_leb x y = true -> date_ticker_leb y z = true ->
  date_ticker_leb x z = true.
Proof.
  unfold date_ticker_leb. intros H1 H2.
  apply orb_true_iff in H1, H2. apply orb_true_iff.
  destruct H1 as [H1|H1], H2 as [H2|H2];
    try apply andb_true_iff in H1; try apply andb_true_iff in H2;
    try (left; lia).
  right. apply andb_true_iff. destruct H1 as [E1 L1], H2 as [E2 L2].
  split; [lia | eapply string_leb_trans; eassumption].
Qed.

Lemma date_ticker_leb_total (x y : holding) :
  date_ticker_leb x y = false -> date_ticker_leb y x = true.
Proof.
  unfold date_ticker_leb. intros H. apply orb_false_iff in H. destruct H as [H1 H2].
  apply orb_true_iff. destruct (h_date x =? h_date y) eqn:E; [|left; lia].
  right. apply andb_true_iff. split; [lia|].
  simpl in H2. destruct (String.leb_total (h_ticker x) (h_ticker y)); congruence.
Qed.

Lemma sort_date_ticker_sorted (l : list holding) :
  StronglySorted (fun a b => date_ticker_leb a b = true)
    (sort_values date_ticker_leb l).
Proof.
  apply sort_values_sorted; [tauto | apply date_ticker_leb_total |].
  intros x y z. apply date_ticker_leb_trans.
Qed.

Lemma Permutation_filter_same {A : Type} (p : A -> bool) (l l' : list A) :
  Permutation l l' -> Permutation (filter p l) (filter p l').
Proof.
  induction 1 as [|x l l' _ IH|x y l|l l' l'' _ IH1 _ IH2]; simpl.
  - constructor.
  - destruct (p x); [now constructor | assumption].
  - destruct (p x), (p y); try reflexivity. apply perm_swap.
  - etransitivity; eassumption.
Qed.


Lemma normalize_perm (files : list snapshot) :
  Permutation (normalize files) (kept_lines files).
Proof.
  unfold normalize, kept_lines. apply Permutation_filter_same.
  symmetry. apply sort_values_perm.
Qed.

Lemma normalize_sorted_by_key (files : list snapshot) :
  StronglySorted (fun a b => date_ticker_leb a b = true) (normalize files).
Proof.
  unfold normalize. apply StronglySorted_filter, sort_date_ticker_sorted.
Qed.

(** the rows of the table are made of the normalized lines, one by one *)
Lemma rows_of_lines fos n (dmin : option Z) :
  forall (l : list holding) (rows : list (holding * num)) (ds : list num)
         (tbl : list position),
  Forall2 (fun h r => parse_shares fos h = Ok r) l rows ->
  List.length ds = List.length rows ->
  Forall2 (fun x y => parse_value fos n x = Ok y)
    (map (fun rd => (fst rd, change_of dmin (fst rd) (snd rd))) (combine rows ds)) tbl ->
  Forall2 (row_of_line fos n) l tbl.
Proof.
  induction l as [|h l IH]; intros rows ds tbl H1 Hlen H2.
  - inversion H1; subst. simpl in H2. inversion H2. constructor.
  - inversion H1 as [|? r ? rows' Hr Hrs]; subst.
    destruct ds as [|d ds]; [discriminate|]. simpl in Hlen.
    simpl in H2. inversion H2 as [|? p ? tbl' Hp Hps]; subst.
    constructor; [|eapply IH; [eassumption | | eassumption]; lia].
    unfold parse_shares, astype_float in Hr.
    destruct (fos (strip_commas (h_shares h))) as [x|] eqn:Ex; [|discriminate].
    cbn in Hr. injection Hr as <-. cbn in Hp.
    unfold astype_float in Hp.
    destruct (fos (strip_commas (h_value h))) as [v|] eqn:Ev; [|discriminate].
    cbn in Hp. injection Hp as <-. unfold row_of_line. cbn.
    repeat split; try assumption. exists v. now split.
Qed.

Lemma read_positions_lines fos n files tbl :
  read_positions fos n files = Ok tbl ->
  Forall2 (row_of_line fos n) (normalize files) tbl.
Proof.
  unfold read_positions. intros H.
  destruct files as [|f files]; [discriminate|].
  apply bind_ok in H. destruct H as [rows [Hr Hv]].
  apply mapM_Forall2 in Hr, Hv. unfold with_change in Hv.
  eapply rows_of_lines; [exact Hr | | exact Hv].
  apply groupby_diff_length.
Qed.

Lemma Forall2_sorted {A B : Type} (R : A -> A -> Prop) (S : B -> B -> Prop)
    (T : A -> B -> Prop) :
  (forall a a' b b', T a b -> T a' b' -> R a a' -> S b b') ->
  forall l l', Forall2 T l l' -> StronglySorted R l -> StronglySorted S l'.
Proof.
  intros HT. induction 1 as [|a b l l' Hab Hl IH]; intros Hs; [constructor|].
  inversion Hs as [|? ? Hs' Ha]; subst. constructor; [now apply IH|].
  clear IH Hs Hs'. induction Hl as [|a' b' l l' Hab' Hl IH]; [constructor|].
  inversion Ha; subst. constructor; [eapply HT; eassumption | now apply IH].
Qed.

(** X6.  The table of [get_positions] holds one row for every line of
    the snapshots that has a symbol and whose class names neither an
    expiration nor a unit, and no other row; the row carries the date,
    ticker and class of its line, the numbers read from its two
    columns and the sell date and quarter of its date; the rows are
    ordered by date and, within a date, by ticker. *)
Theorem loader_keeps_lines fos n (files : list snapshot) (tbl : list position) :
  read_positions fos n files = Ok tbl ->
  (exists hs, Permutation hs (kept_lines files) /\
              Forall2 (row_of_line fos n) hs tbl) /\
  StronglySorted date_ticker_le tbl.
Proof.
  intros H. pose proof (read_positions_lines _ _ _ _ H) as HF. split.
  - exists (normalize files). split; [apply normalize_perm | exact HF].
  - eapply Forall2_sorted; [| exact HF | apply normalize_sorted_by_key].
    intros a a' b b' (Ed & Et & _) (Ed' & Et' & _) Hle.
    unfold date_ticker_le. rewrite Ed, Et, Ed', Et'.
    unfold date_ticker_leb in Hle. apply orb_true_iff in Hle.
    destruct Hle as [Hle|Hle]; [left; lia|].
    apply andb_true_iff in Hle. right. split; [lia | tauto].
Qed.

Lemma loader_keeps_lines_witness :
  (exists hs, Permutation hs (kept_lines three_filings) /\
              Forall2 (row_of_line float_of_digits 13) hs three_table) /\
  StronglySorted date_ticker_le three_table.
Proof.
  apply (loader_keeps_lines float_of_digits 13 three_filings three_table).
  vm_compute. reflexivity.
Defined.

(** two sorted lists with the same elements are the same list, where
    the order is antisymmetric on them *)
Lemma sorted_perm_eq {A : Type} (R : A -> A -> Prop) :
  forall l l' : list A,
  (forall x y, In x l -> In y l -> R x y -> R y x -> x = y) ->
  StronglySorted R l -> StronglySorted R l' -> Permutation l l' -> l = l'.
Proof.
  induction l as [|a l IH]; intros l' Hanti Hs Hs' Hp.
  - apply Permutation_nil in Hp. now subst.
  - destruct l' as [|b l'].
    { apply Permutation_sym, Permutation_nil in Hp. discriminate. }
    inversion Hs as [|? ? Hsl Ha]; subst. inversion Hs' as [|? ? Hsl' Hb]; subst.
    rewrite Forall_forall in Ha, Hb.
    assert (Eab : a = b).
    { assert (Hain : In a (b :: l')) by (eapply Permutation_in; [exact Hp | now left]).
      assert (Hbin : In b (a :: l))
        by (eapply Permutation_in; [symmetry; exact Hp | now left]).
      destruct Hain as [E|Hain]; [now subst|].
      destruct Hbin as [E|Hbin]; [now subst|].
      apply Hanti; [now left | now right | now apply Ha | now apply Hb]. }
    subst b. f_equal. apply Permutation_cons_inv in Hp.
    apply IH; try assumption.
    intros x y Hx Hy. apply Hanti; now right.
Qed.

Lemma date_ticker_leb_antisym (x y : holding) :
  date_ticker_leb x y = true -> date_ticker_leb y x = true ->
  holding_key x = holding_key y.
Proof.
  unfold date_ticker_leb, holding_key. intros H1 H2.
  apply orb_true_iff in H1, H2.
  destruct H1 as [H1|H1], H2 as [H2|H2];
    try apply andb_true_iff in H1; try apply andb_true_iff in H2; try lia.
  destruct H1 as [E1 L1], H2 as [E2 L2].
  f_equal; [lia | now apply String.leb_antisym].
Qed.

Lemma NoDup_map_inj_on {A B : Type} (f : A -> B) (l : list A) :
  NoDup (map f l) -> forall x y, In x l -> In y l -> f x = f y -> x = y.
Proof.
  induction l as [|a l IH]; intros Hnd x y Hx Hy E; [contradiction|].
  simpl in Hnd. inversion Hnd as [|? ? Hna Hnd']; subst.
  destruct Hx as [<-|Hx], Hy as [<-|Hy]; try reflexivity.
  - exfalso. apply Hna. rewrite E. now apply in_map.
  - exfalso. apply Hna. rewrite <- E. now apply in_map.
  - now apply IH.
Qed.

Lemma kept_lines_perm (files files' : list snapshot) :
  Permutation files files' -> Permutation (kept_lines files) (kept_lines files').
Proof.
  intros H. unfold kept_lines. apply Permutation_filter_same.
  now apply Permutation_flat_map.
Qed.

(** X7.  The order in which [os.listdir] lists the snapshot files does
    not matter, where no two of the kept lines share date and ticker:
    [get_positions] returns the same table, or raises the same
    exception, for any order of the same files. *)
Theorem loader_ignores_directory_order fos n (files files' : list snapshot) :
  Permutation files files' ->
  NoDup (map holding_key (kept_lines files)) ->
  read_positions fos n files' = read_positions fos n files.
Proof.
  intros Hp Hnd.
  assert (E : normalize files' = normalize files).
  { symmetry.
    apply (sorted_perm_eq (fun a b => date_ticker_leb a b = true)).
    - intros x y Hx Hy H1 H2.
      apply (NoDup_map_inj_on holding_key (kept_lines files) Hnd).
      + eapply Permutation_in; [apply normalize_perm | exact Hx].
      + eapply Permutation_in; [apply normalize_perm | exact Hy].
      + now apply date_ticker_leb_antisym.
    - apply normalize_sorted_by_key.
    - apply normalize_sorted_by_key.
    - rewrite !normalize_perm. now apply kept_lines_perm. }
  unfold read_positions. rewrite E.
  destruct files as [|f fs], files' as [|f' fs']; try reflexivity.
  - apply Permutation_nil in Hp. discriminate.
  - apply Permutation_sym, Permutation_nil in Hp. discriminate.
Qed.

Lemma loader_ignores_directory_order_witness :
  read_positions float_of_digits 13 (rev three_filings) =
  read_positions float_of_digits 13 three_filings.
Proof.
  apply (loader_ignores_directory_order float_of_digits 13).
  - apply Permutation_rev.
  - vm_compute. repeat constructor; simpl; intuition discriminate.
Defined.

(** ** Class codes *)

Lemma prefix_app (m b : string) : prefix m (m ++ b) = true.
Proof.
  induction m as [|c m IH]; simpl; [destruct b; reflexivity|].
  destruct (ascii_dec c c); [exact IH | congruence].
Qed.

Lemma prefix_inv (m s : string) :
  prefix m s = true -> exists b, s = (m ++ b)%string.
Proof.
  revert s. induction m as [|c m IH]; intros s H.
  - now exists s.
  - destruct s as [|c' s]; [discriminate|]. simpl in H.
    destruct (ascii_dec c c') as [<-|]; [|discriminate].
    destruct (IH s H) as [b ->]. now exists b.
Qed.

Lemma contains_prefix (m s : string) : prefix m s = true -> contains m s = true.
Proof. destruct s; simpl; intros ->; reflexivity. Qed.

Lemma contains_infix (a m b : string) : contains m (a ++ m ++ b) = true.
Proof.
  induction a as [|c a IH]; simpl.
  - apply contains_prefix, prefix_app.
  - rewrite IH. apply orb_true_r.
Qed.

Lemma contains_inv (m s : string) :
  contains m s = true -> exists a b, s = (a ++ m ++ b)%string.
Proof.
  induction s as [|c s IH]; cbn [contains]; intros H.
  - rewrite orb_false_r in H. apply prefix_inv in H. destruct H as [b ->].
    now exists EmptyString, b.
  - apply orb_true_iff in H. destruct H as [H|H].
    + apply prefix_inv in H. destruct H as [b ->]. now exists EmptyString, b.
    + destruct (IH H) as (a & b & ->). now exists (String c a), b.
Qed.

Lemma upper_string_app (a b : string) :
  upper_string (a ++ b) = (upper_string a ++ upper_string b)%string.
Proof. induction a as [|c a IH]; simpl; [reflexivity | now rewrite IH]. Qed.

Lemma upper_string_app_inv (x y : string) : forall s,
  upper_string s = (x ++ y)%string ->
  exists a b, s = (a ++ b)%string /\ upper_string a = x /\ upper_string b = y.
Proof.
  induction x as [|c x IH]; intros s H; simpl in H.
  - now exists EmptyString, s.
  - destruct s as [|c0 s]; [discriminate|]. simpl in H. injection H as Hc Hs.
    destruct (IH s Hs) as (a & b & -> & Ha & Hb).
    exists (String c0 a), b. simpl. now rewrite Hc, Ha.
Qed.

(** the filter of line 53: the class holds [exp] or [unit] somewhere,
    in any mix of upper and lower case *)
Lemma contains_exp_unit_spec (c : string) :
  contains_exp_unit c = false <-> plain_class c.
Proof.
  unfold contains_exp_unit, plain_class. split.
  - intros H a m b ->. apply orb_false_iff in H. destruct H as [H1 H2].
    rewrite !upper_string_app in H1, H2.
    split; intros E; rewrite E in *;
      [rewrite contains_infix in H1 | rewrite contains_infix in H2]; discriminate.
  - intros H. apply orb_false_iff. split.
    + destruct (contains "EXP" (upper_string c)) eqn:E; [exfalso|reflexivity].
      apply contains_inv in E. destruct E as (x & y & E).
      apply upper_string_app_inv in E. destruct E as (a & mb & -> & _ & E).
      apply upper_string_app_inv in E. destruct E as (m & b & -> & Em & _).
      destruct (H a m b eq_refl) as [Hm _]. now apply Hm.
    + destruct (contains "UNIT" (upper_string c)) eqn:E; [exfalso|reflexivity].
      apply contains_inv in E. destruct E as (x & y & E).
      apply upper_string_app_inv in E. destruct E as (a & mb & -> & _ & E).
      apply upper_string_app_inv in E. destruct E as (m & b & -> & Em & _).
      destruct (H a m b eq_refl) as [_ Hm]. now apply Hm.
Qed.

Lemma Forall2_In_r {A B : Type} (T : A -> B -> Prop) (l : list A) (l' : list B) (y : B) :
  Forall2 T l l' -> In y l' -> exists x, In x l /\ T x y.
Proof.
  induction 1 as [|a b l l' Hab _ IH]; intros Hy; [contradiction|].
  destruct Hy as [<-|Hy]; [exists a; split; [now left | assumption]|].
  destruct (IH Hy) as (x & Hx & Hxy). exists x. split; [now right | assumption].
Qed.

(** X8.  The loader drops the options and units whatever the case of
    the letters: no row of its table has a class code that holds
    [exp] or [unit] in any mix of upper and lower case, and every line
    with a symbol and a class code free of both has its row in the
    table.  (Class codes are ASCII text.) *)
Theorem class_filter_ignores_case fos n (files : list snapshot) (tbl : list position) :
  read_positions fos n files = Ok tbl ->
  (forall p, In p tbl -> plain_class (class p)) /\
  (forall h, In h (flat_map labelled files) -> plain_class (h_class h) ->
     exists p, In p tbl /\ row_of_line fos n h p).
Proof.
  intros H. apply read_positions_lines in H. split.
  - intros p Hp. destruct (Forall2_In_r _ _ _ _ H Hp) as (h & Hh & Hrow).
    destruct Hrow as (_ & _ & -> & _).
    apply contains_exp_unit_spec. unfold normalize in Hh.
    apply filter_In in Hh. destruct Hh as [_ Hh]. now apply negb_true_iff in Hh.
  - intros h Hh Hc. apply (Forall2_In_l _ _ _ _ H).
    unfold normalize. apply filter_In. split.
    + now apply sort_values_In.
    + apply negb_true_iff. now apply contains_exp_unit_spec.
Qed.

Lemma class_filter_ignores_case_witness :
  (forall p, In p options_table -> plain_class (class p)) /\
  exists p, In p options_table /\ row_of_line float_of_digits 13 aaa_apr_line p.
Proof.
  destruct (class_filter_ignores_case float_of_digits 13 filings_with_options
              options_table) as [H1 H2].
  - vm_compute. reflexivity.
  - split; [exact H1|]. apply H2.
    + vm_compute. tauto.
    + apply contains_exp_unit_spec. reflexivity.
Defined.

(** ** Trailing returns *)

Lemma ffill_from_length (l : list num) : forall last,
  List.length (ffill_from last l) = List.length l.
Proof. induction l as [|x l IH]; intros last; simpl; [reflexivity | now rewrite IH]. Qed.

Lemma find_app_first {A : Type} (f : A -> bool) (l1 l2 : list A) :
  find f (l1 ++ l2) =
  match find f l1 with Some x => Some x | None => find f l2 end.
Proof.
  induction l1 as [|a l1 IH]; simpl; [reflexivity|].
  destruct (f a); [reflexivity | exact IH].
Qed.

(** padding: every row gets the last price known so far *)
Lemma ffill_from_nth (l : list num) : forall (last : num) (k : nat),
  (k < List.length l)%nat ->
  nth k (ffill_from last l) NaN =
  match find (fun x => negb (isna x)) (rev (firstn (S k) l)) with
  | Some x => x
  | None => last
  end.
Proof.
  induction l as [|x l IH]; intros last k Hk; simpl in Hk; [lia|].
  destruct k as [|k].
  - simpl. unfold fillna. destruct (isna x); reflexivity.
  - cbn [ffill_from nth]. rewrite IH by lia.
    change (firstn (S (S k)) (x :: l)) with (x :: firstn (S k) l).
    cbn [rev]. rewrite find_app_first.
    destruct (find _ (rev (firstn (S k) l))); [reflexivity|].
    simpl. unfold fillna. destruct (isna x); reflexivity.
Qed.

Lemma shift_length (n : Z) (l : list num) :
  0 <= n -> List.length (shift n l) = List.length l.
Proof.
  intros Hn. unfold shift. destruct (0 <=? n) eqn:E; [|lia].
  rewrite length_firstn, length_app. lia.
Qed.

Lemma shift_nth (n : Z) (l : list num) (k : nat) :
  0 <= n -> (k < List.length l)%nat ->
  nth k (shift n l) NaN =
  if Z.of_nat k <? n then NaN else nth (k - Z.to_nat n) l NaN.
Proof.
  intros Hn Hk. unfold shift. destruct (0 <=? n) eqn:E; [|lia].
  rewrite nth_firstn. destruct (k <? List.length l)%nat eqn:Ek;
    [|apply Nat.ltb_ge in Ek; lia].
  destruct (Z.of_nat k <? n) eqn:Ekn.
  - rewrite app_nth1 by (rewrite repeat_length; lia).
    apply nth_repeat.
  - rewrite app_nth2 by (rewrite repeat_length; lia).
    now rewrite repeat_length.
Qed.

Lemma pct_change100_length (n : Z) (l : list num) :
  0 <= n -> List.length (pct_change100 n l) = List.length l.
Proof.
  intros Hn. unfold pct_change100.
  rewrite length_map, length_combine, shift_length, ffill_from_length by assumption.
  lia.
Qed.

Lemma pct_change100_nth (n : Z) (l : list num) (k : nat) :
  0 <= n -> (k < List.length l)%nat ->
  nth k (pct_change100 n l) NaN =
  if Z.of_nat k <? n then NaN
  else percent_change (last_seen l (k - Z.to_nat n)) (last_seen l k).
Proof.
  intros Hn Hk. unfold pct_change100.
  set (d := ffill_from NaN l).
  assert (Hd : List.length d = List.length l) by apply ffill_from_length.
  change NaN with ((fun ab => mul (sub (div (fst ab) (snd ab)) (Fin 1)) (Fin 100))
                     (NaN, NaN)) at 1.
  rewrite map_nth, combine_nth by (rewrite shift_length; [reflexivity | assumption]).
  cbn [fst snd]. rewrite shift_nth by (assumption || lia).
  destruct (Z.of_nat k <? n) eqn:Ekn.
  - destruct (nth k d NaN); reflexivity.
  - unfold d. rewrite !ffill_from_nth by lia. reflexivity.
Qed.

(** X9.  The trailing return over [n] rows, as [pct_change(n) * 100]
    computes it on a column of prices: the column keeps its length; the
    first [n] rows are NaN; every other row holds the change in percent
    from the last price known [n] rows above to the last price known at
    the row, a missing price being replaced by the one before it. *)
Theorem trailing_return (n : Z) (l : list num) (k : nat) :
  0 <= n -> (k < List.length l)%nat ->
  List.length (pct_change100 n l) = List.length l /\
  nth k (pct_change100 n l) NaN =
    if Z.of_nat k <? n then NaN
    else percent_change (last_seen l (k - Z.to_nat n)) (last_seen l k).
Proof.
  intros Hn Hk. split; [now apply pct_change100_length | now apply pct_change100_nth].
Qed.

Lemma trailing_return_witness :
  List.length (pct_change100 1 [Fin 100; NaN; Fin 121]) = 3%nat /\
  nth 2 (pct_change100 1 [Fin 100; NaN; Fin 121]) NaN =
    percent_change (Fin 100) (Fin 121).
Proof.
  apply (trailing_return 1 [Fin 100; NaN; Fin 121] 2); [lia | simpl; lia].
Defined.

(** ** The observations of the price aligner *)

Lemma sell_date_ticker_leb_trans (x y z : observation) :
  sell_date_ticker_leb x y = true -> sell_date_ticker_leb y z = true ->
  sell_date_ticker_leb x z = true.
Proof.
  unfold sell_date_ticker_leb. intros H1 H2.
  apply orb_true_iff in H1, H2. apply orb_true_iff.
  destruct H1 as [H1|H1], H2 as [H2|H2];
    try apply andb_true_iff in H1; try apply andb_true_iff in H2;
    try (left; lia).
  right. apply andb_true_iff. destruct H1 as [E1 L1], H2 as [E2 L2].
  split; [lia | eapply string_leb_trans; eassumption].
Qed.

Lemma sell_date_ticker_leb_total (x y : observation) :
  sell_date_ticker_leb x y = false -> sell_date_ticker_leb y x = true.
Proof.
  unfold sell_date_ticker_leb. intros H. apply orb_false_iff in H. destruct H as [H1 H2].
  apply orb_true_iff. destruct (o_sell_date x =? o_sell_date y) eqn:E; [|left; lia].
  right. apply andb_true_iff. split; [lia|].
  simpl in H2. destruct (String.leb_total (o_ticker x) (o_ticker y)); congruence.
Qed.

Lemma In_combine_nth {A B : Type} (l : list A) (l' : list B) (a : A) (b : B) :
  In (a, b) (combine l l') <->
  exists k, nth_error l k = Some a /\ nth_error l' k = Some b.
Proof.
  revert l'. induction l as [|x l IH]; intros [|y l']; simpl.
  - split; [intros [] | intros [[|k] [H _]]; discriminate].
  - split; [intros [] | intros [[|k] [H _]]; discriminate].
  - split; [intros [] | intros [[|k] [_ H]]; discriminate].
  - rewrite IH. split.
    + intros [E|[k Hk]]; [injection E as <- <-; now exists 0%nat | now exists (S k)].
    + intros [[|k] [H1 H2]]; simpl in H1, H2.
      * left. congruence.
      * right. now exists k.
Qed.



(** ** The table of a run *)

Lemma StronglySorted_impl {A : Type} (R S : A -> A -> Prop) (l : list A) :
  (forall a b, R a b -> S a b) -> StronglySorted R l -> StronglySorted S l.
Proof.
  intros HRS. induction 1 as [|a l Hs IH Ha]; constructor; [assumption|].
  rewrite Forall_forall in *. auto.
Qed.

Lemma NoDup_map_inj {A B : Type} (f : A -> B) (l : list A) :
  (forall x y, f x = f y -> x = y) -> NoDup l -> NoDup (map f l).
Proof.
  intros Hf. induction 1 as [|a l Ha Hl IH]; simpl; constructor; [|assumption].
  intros Hin. apply in_map_iff in Hin. destruct Hin as [x [E Hx]].
  apply Hf in E. now subst.
Qed.

Lemma distinct_dates_sorted fos n files tbl :
  read_positions fos n files = Ok tbl ->
  StronglySorted Z.lt (distinct_dates tbl).
Proof.
  intros H. apply read_positions_rows in H. destruct H as (Hs & _).
  apply unique_from_increasing. now apply StronglySorted_map in Hs.
Qed.

(** one period for every filing date, in the order of the dates *)
Lemma period_keys_of_table fos n files tbl pc rows :
  read_positions fos n files = Ok tbl ->
  merge_weight tbl pc = Ok rows ->
  map (fun pr => (pr_quarter pr, pr_sell_date pr))
      (sort_values pr_sell_date_leb (groupby_sum rows))
  = map (fun d => (quarter_label d, d + 7 * n)) (distinct_dates tbl).
Proof.
  intros Hl Hm. symmetry.
  pose proof (distinct_dates_sorted _ _ _ _ Hl) as Hdd.
  apply read_positions_rows in Hl. destruct Hl as (_ & Hfields & _).
  destruct (merge_weight_rows _ _ _ Hm) as [_ Erows].
  apply (sorted_perm_eq (fun a b : string * Z => snd a <= snd b)).
  - intros x y Hx Hy H1 H2.
    apply in_map_iff in Hx, Hy. destruct Hx as [d [<- _]], Hy as [d' [<- _]].
    cbn [snd] in H1, H2. assert (d = d') by lia. now subst.
  - apply StronglySorted_map with (f := fun d => (quarter_label d, d + 7 * n)).
    eapply StronglySorted_impl; [|exact Hdd]. cbn. intros. lia.
  - apply StronglySorted_map
      with (f := fun pr => (pr_quarter pr, pr_sell_date pr)).
    cbn [snd]. apply sort_values_by_key; unfold pr_sell_date_leb; intros; lia.
  - apply NoDup_Permutation.
    + apply NoDup_map_inj.
      * intros d d' E. injection E as _ E. lia.
      * apply unique_NoDup, Z.eqb_eq.
    + eapply Permutation_NoDup.
      * apply Permutation_map, sort_values_perm.
      * rewrite groupby_sum_keys. apply unique_NoDup, period_key_eqb_spec.
    + intros x.
      rewrite <- (Permutation_in' (eq_refl x)
                    (Permutation_map _ (sort_values_perm pr_sell_date_leb _))).
      rewrite groupby_sum_keys, (unique_In _ period_key_eqb_spec).
      rewrite !in_map_iff. split.
      * intros [d [<- Hd]].
        apply (proj1 (unique_In Z.eqb Z.eqb_eq d (map date tbl))) in Hd.
        apply in_map_iff in Hd. destruct Hd as [p [<- Hp]].
        exists {| p_pos := p; p_price_change := nearest_return pc p;
                  p_weight := weight_of tbl p;
                  p_performance := mul (nearest_return pc p) (weight_of tbl p) |}.
        split.
        -- unfold period_key. cbn. destruct (Hfields p Hp) as [-> ->]. reflexivity.
        -- rewrite Erows. apply in_map_iff. now exists p.
      * intros [r [<- Hr]]. rewrite Erows in Hr. apply in_map_iff in Hr.
        destruct Hr as [p [<- Hp]]. exists (date p). split.
        -- unfold period_key. cbn. destruct (Hfields p Hp) as [-> ->]. reflexivity.
        -- apply (proj2 (unique_In Z.eqb Z.eqb_eq (date p) (map date tbl))).
           now apply in_map.
Qed.

Lemma set_loc0_nan_keys (t : list period_return) :
  t <> [] ->
  exists rows, set_loc0_nan t = Rows rows /\
    map (fun pr => (pr_quarter pr, pr_sell_date pr)) rows
    = map (fun pr => (pr_quarter pr, pr_sell_date pr)) t.
Proof.
  destruct t as [|r t]; [congruence|]. intros _. eexists. split; reflexivity.
Qed.

(** the run of a new fund, step by step *)
Lemma evaluate_new_fund (w : World) (n : Z) (cmp : frame) (s : HedgeFund) :
  evaluate w (init n) = Ok (cmp, s) ->
  exists prs,
    read_positions (float_of_string w) n (listdir_csv w) = Ok (positions s) /\
    performance s = [("simple"%string, Rows prs)] /\
    cmp = single_comparison prs (sp500_change s) /\
    comparison s = cmp /\
    map (fun pr => (pr_quarter pr, pr_sell_date pr)) prs
    = map (fun d => (quarter_label d, d + 7 * n)) (distinct_dates (positions s)) /\
    (2 <= List.length (distinct_dates (positions s)))%nat /\
    exists r0 rest, prs = r0 :: rest /\ pr_performance r0 = NaN.
Proof.
  unfold evaluate. intros H.
  apply bind_ok in H. destruct H as [s1 [H1 H]].
  apply bind_ok in H. destruct H as [s2 [H2 H]].
  apply bind_ok in H. destruct H as [s3 [H3 H]].
  injection H as <- <-.
  pose proof H1 as Hload. unfold get_positions in Hload.
  apply bind_ok in Hload. destruct Hload as [tbl [Hread Es1]].
  injection Es1 as Es1. cbn [init n_weeks] in Hread.
  assert (Et : positions s1 = tbl) by now rewrite <- Es1.
  assert (Ep1 : performance s1 = []) by now rewrite <- Es1.
  pose proof (get_prices_inv _ _ _ H2) as (st & sp & Hw & _ & _ & _ & Epos & Eperf).
  rewrite Et in Epos. rewrite Ep1 in Eperf.
  assert (Hlen : (2 <= List.length (distinct_dates tbl))%nat).
  { unfold query_window in Hw. rewrite Et in Hw. fold (distinct_dates tbl) in Hw.
    destruct (nth_error (distinct_dates tbl) 1) eqn:E; [|discriminate].
    assert (nth_error (distinct_dates tbl) 1 <> None) by congruence.
    apply nth_error_Some in H. lia. }
  pose proof (calculate_returns_inv _ _ H3) as (s2' & perf & merged & cmp0 & Hc & Hperf & _).
  rewrite Eperf in Hc.
  pose proof (create_portfolio_rows _ _ _ Hc) as (rows & Hm & _ & _ & Epos' & _ & Esp').
  rewrite Epos in Hm.
  assert (Ep2 : performance s2' = [("simple"%string, period_returns rows)]).
  { unfold create_portfolio in Hc. rewrite Epos in Hc. rewrite Hm in Hc.
    cbn [bind] in Hc. injection Hc as <-. cbn. now rewrite Eperf. }
  assert (Hne : sort_values pr_sell_date_leb (groupby_sum rows) <> []).
  { intros E. pose proof (period_keys_of_table _ _ _ _ _ _ Hread Hm) as K.
    rewrite E in K. simpl in K. symmetry in K. apply map_eq_nil in K.
    rewrite K in Hlen. simpl in Hlen. lia. }
  destruct (set_loc0_nan_keys _ Hne) as (prs & Eprs & Ekeys).
  fold (period_returns rows) in Eprs. rewrite Eprs in Ep2.
  rewrite (period_keys_of_table _ _ _ _ _ _ Hread Hm) in Ekeys.
  assert (Ecmp : comparison s3 = single_comparison prs (sp500_change s2')).
  { apply (calculate_returns_single s2' s3 "simple" prs); [|exact Ep2].
    rewrite <- H3. symmetry. apply calculate_returns_default; try assumption.
    rewrite Ep2. discriminate. }
  assert (E3 : positions s3 = tbl /\ performance s3 = performance s2' /\
               sp500_change s3 = sp500_change s2').
  { unfold calculate_returns in H3. rewrite Eperf, Hc in H3. cbn [bind] in H3.
    apply bind_ok in H3. destruct H3 as [? [_ H3]].
    apply bind_ok in H3. destruct H3 as [? [_ H3]].
    apply bind_ok in H3. destruct H3 as [? [_ H3]].
    injection H3 as <-. cbn. now rewrite Epos'. }
  destruct E3 as (Epos3 & Eperf3 & Esp3).
  exists prs. rewrite Epos3, Eperf3, Esp3, Ecmp.
  repeat split; try assumption.
  pose proof (set_loc0_nan_spec (sort_values pr_sell_date_leb (groupby_sum rows))) as Hs.
  fold (period_returns rows) in Hs. rewrite Eprs in Hs.
  destruct prs as [|r0 rest]; [contradiction|].
  destruct Hs as (r & _ & _ & _ & Hnan). now exists r0, rest.
Qed.

(** X11.  The table that [evaluate] returns for a new fund has one row
    for every filing date of the directory, in the order of the dates:
    the row of a date carries the sell date [n_weeks] weeks after it and
    the label of its quarter.  Its columns are [performance], [VOO] and
    [outperformance], each as long as the table; there are two filing
    dates at least. *)
Theorem evaluate_one_row_per_filing (w : World) (n : Z) (cmp : frame) (s : HedgeFund) :
  evaluate w (init n) = Ok (cmp, s) ->
  read_positions (float_of_string w) n (listdir_csv w) = Ok (positions s) /\
  sell_date_col cmp = map (fun d => d + 7 * n) (distinct_dates (positions s)) /\
  quarter_col cmp = Some (map quarter_label (distinct_dates (positions s))) /\
  labels cmp = ["performance"; "VOO"; "outperformance"]%string /\
  (forall c col, In (c, col) (float_cols cmp) ->
     List.length col = List.length (distinct_dates (positions s))) /\
  (2 <= List.length (distinct_dates (positions s)))%nat.
Proof.
  intros H. apply evaluate_new_fund in H.
  destruct H as (prs & Hread & _ & -> & _ & Ekeys & Hlen & _).
  assert (Esd : map pr_sell_date prs
                = map (fun d => d + 7 * n) (distinct_dates (positions s))).
  { apply (f_equal (map snd)) in Ekeys. rewrite !map_map in Ekeys. exact Ekeys. }
  assert (Eq : map pr_quarter prs = map quarter_label (distinct_dates (positions s))).
  { apply (f_equal (map fst)) in Ekeys. rewrite !map_map in Ekeys. exact Ekeys. }
  assert (Elen : List.length prs = List.length (distinct_dates (positions s))).
  { apply (f_equal (@List.length _)) in Esd. now rewrite !length_map in Esd. }
  unfold single_comparison. cbn.
  rewrite Esd, Eq. repeat split; try assumption.
  intros c col [E|[E|[E|[]]]]; injection E as <- <-; now rewrite length_map.
Qed.

Lemma evaluate_one_row_per_filing_witness :
  match evaluate (market two_filings) (init 1) with
  | Ok (cmp, s) =>
      sell_date_col cmp = map (fun d => d + 7 * 1) (distinct_dates (positions s)) /\
      labels cmp = ["performance"; "VOO"; "outperformance"]%string
  | Raise _ => False
  end.
Proof.
  destruct (evaluate (market two_filings) (init 1)) as [[cmp s]|e] eqn:E.
  - destruct (evaluate_one_row_per_filing _ _ _ _ E) as (_ & H1 & _ & H2 & _).
    split; assumption.
  - vm_compute in E. discriminate.
Defined.

(** ** The benchmark of a row *)

Lemma calculate_returns_benchmark_sorted (self self' : HedgeFund) a rows :
  calculate_returns self = Ok self' ->
  performance self = [(a, Rows rows)] ->
  StronglySorted (fun x y : Z * num => fst x <= fst y) (sp500_change self).
Proof.
  intros H Hp. apply calculate_returns_inv in H.
  destruct H as (s1 & perf & merged & cmp & H1 & _ & Hm & _).
  rewrite Hp in H1. injection H1 as <-.
  unfold merge_benchmark in Hm.
  destruct (is_sorted (fun d : Z => d) (sell_date_col perf)); [|discriminate].
  destruct (is_sorted fst (sp500_change self)) eqn:E; [|discriminate].
  now apply is_sorted_sorted.
Qed.

(** X12.  In the comparison of one approach the benchmark return of a
    row is the rounded return of the benchmark series at the date
    nearest to the sell date of the row, however far that is, and at
    the earlier of two dates equally near; it is NaN only when the
    series is empty. *)
Theorem benchmark_is_nearest (self self' : HedgeFund) (a : string)
    (rows : list period_return) (k : nat) (r : period_return) :
  calculate_returns self = Ok self' ->
  performance self = [(a, Rows rows)] ->
  nth_error rows k = Some r ->
  (sp500_change self = [] /\
   nth_error (column "VOO" (comparison self')) k = Some NaN) \/
  (exists o, nearest_benchmark (sp500_change self) (pr_sell_date r) o /\
             nth_error (column "VOO" (comparison self')) k = Some (round2 (snd o))).
Proof.
  intros H Hp Hk.
  pose proof (calculate_returns_benchmark_sorted _ _ _ _ H Hp) as Hs.
  rewrite (calculate_returns_single _ _ _ _ H Hp).
  unfold column, single_comparison. cbn.
  rewrite nth_error_map, Hk. cbn. unfold benchmark_at.
  destruct (asof_nearest fst (pr_sell_date r) (sp500_change self)) as [o|] eqn:E.
  - right. exists o. split; [|reflexivity].
    apply (asof_nearest_some fst (pr_sell_date r) (sp500_change self) Hs) in E.
    exact E.
  - left. split; [|reflexivity]. eapply asof_nearest_none; eassumption.
Qed.

Lemma benchmark_is_nearest_witness :
  exists o, nearest_benchmark (sp500_change composed_two) 19455 o /\
            nth_error (column "VOO" (comparison compared_two)) 1
              = Some (round2 (snd o)).
Proof.
  destruct (benchmark_is_nearest composed_two compared_two "simple"
              (returns_of "simple" composed_two) 1
              (nth 1 (returns_of "simple" composed_two)
                 {| pr_quarter := EmptyString; pr_sell_date := 0;
                    pr_performance := NaN |}))
    as [[E _]|H].
  - vm_compute. reflexivity.
  - vm_compute. reflexivity.
  - vm_compute. reflexivity.
  - vm_compute in E. discriminate.
  - exact H.
Defined.

(** ** A second run *)

(** X13.  [evaluate] on a fund that already has portfolios reads the
    directory and the prices anew but composes nothing: the portfolios
    and their returns stay as they were, and with one approach the
    table returned compares the returns of the old portfolio with the
    benchmark of the new run. *)
Theorem evaluate_keeps_portfolios (w : World) (self : HedgeFund)
    (cmp : frame) (s : HedgeFund) :
  evaluate w self = Ok (cmp, s) ->
  performance self <> [] ->
  read_positions (float_of_string w) (n_weeks self) (listdir_csv w)
    = Ok (positions s) /\
  performance s = performance self /\ portfolios s = portfolios self /\
  (forall a rows, performance self = [(a, Rows rows)] ->
     cmp = single_comparison rows (sp500_change s)).
Proof.
  unfold evaluate. intros H Hne.
  apply bind_ok in H. destruct H as [s1 [H1 H]].
  apply bind_ok in H. destruct H as [s2 [H2 H]].
  apply bind_ok in H. destruct H as [s3 [H3 H]].
  injection H as <- <-.
  unfold get_positions in H1. apply bind_ok in H1. destruct H1 as [tbl [Hread Es1]].
  injection Es1 as Es1.
  assert (E1 : positions s1 = tbl /\ performance s1 = performance self /\
               portfolios s1 = portfolios self) by now rewrite <- Es1.
  destruct E1 as (Et1 & Ep1 & Eo1).
  assert (E2 : positions s2 = tbl /\ performance s2 = performance self /\
               portfolios s2 = portfolios self).
  { unfold get_prices in H2. apply bind_ok in H2. destruct H2 as [[st sp] [_ H2]].
    injection H2 as <-. cbn. now rewrite Et1, Ep1, Eo1. }
  destruct E2 as (Et2 & Ep2 & Eo2).
  assert (E3 : positions s3 = tbl /\ performance s3 = performance self /\
               portfolios s3 = portfolios self /\ sp500_change s3 = sp500_change s2).
  { pose proof H3 as H. unfold calculate_returns in H. rewrite Ep2 in H.
    destruct (performance self) as [|e l] eqn:Ep; [congruence|].
    cbn [bind] in H. rewrite Ep2 in H.
    apply bind_ok in H. destruct H as [? [_ H]].
    apply bind_ok in H. destruct H as [? [_ H]].
    apply bind_ok in H. destruct H as [? [_ H]].
    injection H as <-. cbn. repeat split; assumption || reflexivity. }
  destruct E3 as (Et3 & Ep3 & Eo3 & Esp3).
  rewrite Et3, Ep3, Eo3, Esp3. repeat split; try assumption.
  intros a rows Hp. apply (calculate_returns_single s2 s3 a rows H3).
  now rewrite Ep2.
Qed.

Lemma evaluate_keeps_portfolios_witness :
  match evaluate (market three_filings) compared_two with
  | Ok (cmp, s) =>
      performance s = performance compared_two /\
      cmp = single_comparison (returns_of "simple" compared_two) (sp500_change s)
  | Raise _ => False
  end.
Proof.
  destruct (evaluate (market three_filings) compared_two) as [[cmp s]|e] eqn:E.
  - destruct (evaluate_keeps_portfolios _ _ _ _ E) as (_ & H1 & _ & H2).
    + vm_compute. discriminate.
    + split; [exact H1|]. apply (H2 "simple"%string). vm_compute. reflexivity.
  - vm_compute in E. discriminate.
Defined.

(** ** The window of the price request *)

(** X14.  The window of the price request covers the sell dates: for
    the table of the loader it runs from the second filing date to the
    latest sell date, which is the holding period after it or later,
    and every row outside the earliest filing has its filing date at
    or after the start of the window and its sell date in the window,
    a holding period or more after the start. *)
Theorem window_covers_sell_dates fos n (files : list snapshot) (tbl : list position)
    (start stop : Z) :
  read_positions fos n files = Ok tbl ->
  query_window tbl = Ok (start, stop) ->
  start + 7 * n <= stop /\
  forall p, In p tbl -> ~ earliest tbl (date p) ->
    start <= date p /\ start + 7 * n <= sell_date p <= stop.
Proof.
  intros Hread Hw. apply read_positions_rows in Hread.
  destruct Hread as (Hs & Hfields & _).
  unfold query_window in Hw. fold (distinct_dates tbl) in Hw.
  destruct (nth_error (distinct_dates tbl) 1) as [d|] eqn:Ed; [|discriminate].
  destruct (list_max (map sell_date tbl)) as [m|] eqn:Em; [|discriminate].
  injection Hw as -> ->.
  destruct (second_date tbl start Hs Ed) as (Hin & _ & Hmin).
  pose proof (list_max_spec _ _ Em) as [_ Hmax].
  assert (Hsell : forall p, In p tbl -> sell_date p <= stop).
  { intros p Hp. apply Hmax. now apply in_map. }
  split.
  - apply in_map_iff in Hin. destruct Hin as [p0 [E0 Hp0]].
    destruct (Hfields p0 Hp0) as [E _]. specialize (Hsell p0 Hp0). lia.
  - intros p Hp Hne. specialize (Hmin p Hp Hne). specialize (Hsell p Hp).
    destruct (Hfields p Hp) as [E _]. lia.
Qed.

Lemma window_covers_sell_dates_witness :
  19448 + 7 * 13 <= 19630 /\
  forall p, In p three_table -> ~ earliest three_table (date p) ->
    19448 <= date p /\ 19448 + 7 * 13 <= sell_date p <= 19630.
Proof.
  apply (window_covers_sell_dates float_of_digits 13 three_filings three_table).
  - vm_compute. reflexivity.
  - vm_compute. reflexivity.
Defined.

(** ** The start of the projection *)

(** X15.  After the run of a new fund the projection of the approach
    starts at the principal, since its first return is missing and
    counts as 0 percent, while the projection of the benchmark starts
    with the first return of the benchmark applied to the principal. *)
Theorem growth_starts_at_principal (w : World) (n : Z) (cmp : frame) (s : HedgeFund)
    (P : Q) :
  evaluate w (init n) = Ok (cmp, s) ->
  (exists g, nth_error (column "performance" (plot_growth (Fin P) s)) 0 = Some g /\
             g ≡ round2 (Fin P)) /\
  (forall v, nth_error (column "VOO" cmp) 0 = Some (Fin v) ->
     exists g, nth_error (column "VOO" (plot_growth (Fin P) s)) 0 = Some g /\
               g ≡ round2 (Fin ((v / 100 + 1) * P))).
Proof.
  intros H. apply evaluate_new_fund in H.
  destruct H as (prs & _ & _ & -> & Ec & _ & _ & (r0 & rest & -> & Hnan)).
  unfold plot_growth. rewrite Ec. split.
  - eexists. split; [cbn; rewrite Hnan; cbn; reflexivity|].
    apply round2_proper. cbn. field.
  - intros v Hv. cbn in Hv. injection Hv as Hv.
    eexists. split; [cbn; rewrite Hv; cbn; reflexivity|].
    apply round2_proper. cbn. field.
Qed.

Lemma growth_starts_at_principal_witness :
  match evaluate (market two_filings) (init 1) with
  | Ok (cmp, s) =>
      exists g, nth_error (column "performance" (plot_growth (Fin 10000) s)) 0 = Some g /\
                g ≡ round2 (Fin 10000)
  | Raise _ => False
  end.
Proof.
  destruct (evaluate (market two_filings) (init 1)) as [[cmp s]|e] eqn:E.
  - apply (growth_starts_at_principal _ _ _ _ 10000 E).
  - vm_compute in E. discriminate.
Defined.

(** ** Rounding *)

(** [np.rint] is within a half of its argument *)
Lemma rint_near (q : Q) :
  (inject_Z (rint q) - q <= 1 # 2 /\ q - inject_Z (rint q) <= 1 # 2)%Q.
Proof.
  unfold rint. pose proof (Qfloor_le q) as H1. pose proof (Qlt_floor q) as H2.
  rewrite inject_Z_plus in H2. change (inject_Z 1) with 1%Q in H2.
  destruct (Qcompare_spec (q - inject_Z (Qfloor q)) (1 # 2)) as [E|E|E].
  - destruct (Z.even (Qfloor q)); rewrite ?inject_Z_plus;
      change (inject_Z 1) with 1%Q; split; lra.
  - split; lra.
  - rewrite inject_Z_plus. change (inject_Z 1) with 1%Q. split; lra.
Qed.

Lemma inject_Z_small (z : Z) :
  (inject_Z z <= 3 # 2)%Q -> (- (3 # 2) <= inject_Z z)%Q -> -1 <= z <= 1.
Proof. unfold Qle, inject_Z. simpl. lia. Qed.

(** two rounded cells and the rounded difference *)
Lemma round_difference (x y : Q) :
  let R := fun q : Q => (inject_Z (rint (q * 100)) / 100)%Q in
  (Qabs.Qabs (R (x + - y) - (R x - R y)) <= 1 # 100)%Q.
Proof.
  cbv zeta beta.
  destruct (rint_near (x * 100)) as [A1 A2].
  destruct (rint_near (y * 100)) as [B1 B2].
  destruct (rint_near ((x + - y) * 100)) as [C1 C2].
  set (a := rint (x * 100)) in *. set (b := rint (y * 100)) in *.
  set (c := rint ((x + - y) * 100)) in *.
  assert (Hz : (inject_Z (c - a + b) == inject_Z c - inject_Z a + inject_Z b)%Q).
  { unfold Qeq, Qminus, Qplus, Qopp, inject_Z. simpl. lia. }
  assert (Hb : -1 <= c - a + b <= 1).
  { apply inject_Z_small; rewrite Hz; lra. }
  assert (Hq : (- (1) <= inject_Z (c - a + b) <= 1)%Q).
  { split; [change (- (1))%Q with (inject_Z (-1)) | change 1%Q with (inject_Z 1)];
      rewrite <- Zle_Qle; lia. }
  apply Qabs.Qabs_Qle_condition. rewrite Hz in Hq. destruct Hq as [Hq1 Hq2].
  unfold Qdiv. change (/ 100)%Q with (1 # 100)%Q. split; lra.
Qed.


